(** * Byte pair encoding tokenizer: a shallow embedding of
      [byte_pair_encoding.py] and the properties of its training loop.

    The development follows the Python source method by method.  Python
    integers are [Z]; a [bytes] object is the list of its byte values; a
    [dict] whose iteration order is observable (the [Counter] consulted by
    [max], the merge table) is an association list in insertion order; the
    vocabulary, which is only ever looked up by key, is a [gmap].  Code that
    can raise runs in the [result] monad. *)

From stdpp Require Import gmap list strings.

Open Scope Z_scope.

(** ** Exceptions and the error monad *)

Inductive exn : Set :=
  | UnicodeEncodeError
  | IndexError
  | KeyError
  | ValueError
  | OutOfFuel.

Inductive result (A : Type) : Type :=
  | Ok (a : A)
  | Err (e : exn).

Arguments Ok {A} a.
Arguments Err {A} e.

#[global] Instance result_ret : MRet result := λ A a, Ok a.
#[global] Instance result_bind : MBind result := λ A B f m,
  match m with
  | Ok a => f a
  | Err e => Err e
  end.

(** ** Python values *)

(** A [str] is a sequence of Unicode code points, each in [range(0x110000)]. *)
Definition is_code_point (c : Z) : bool := (0 <=? c) && (c <? 0x110000).

Record char : Set := Char {
  ord : Z;
  ord_range : is_code_point ord = true
}.

Abbreviation str := (list char) (only parsing).

(** [bytes]: the list of the byte values, each in [range(256)]. *)
Abbreviation bytes := (list Z) (only parsing).

(** [s.encode("utf-8")] for one code point.  A lone surrogate cannot be
    encoded. *)
Definition encode_char (c : char) : result bytes :=
  let n := ord c in
  if n <? 0x80 then Ok [n]
  else if n <? 0x800 then Ok [0xC0 + n / 64; 0x80 + n mod 64]
  else if n <? 0x10000 then
    if (0xD800 <=? n) && (n <=? 0xDFFF) then Err UnicodeEncodeError
    else Ok [0xE0 + n / 4096; 0x80 + (n / 64) mod 64; 0x80 + n mod 64]
  else Ok [0xF0 + n / 262144; 0x80 + (n / 4096) mod 64;
           0x80 + (n / 64) mod 64; 0x80 + n mod 64].

Fixpoint encode_utf8 (text : str) : result bytes :=
  match text with
  | [] => Ok []
  | c :: text' =>
      b ← encode_char c;
      bs ← encode_utf8 text';
      Ok (b ++ bs)
  end.

(** [range(n)] *)
Definition py_range (n : Z) : list Z := seqZ 0 n.

(** [l[i]] for a non-negative index. *)
Definition py_index {A} (l : list A) (i : nat) : result A :=
  match l !! i with
  | Some x => Ok x
  | None => Err IndexError
  end.

(** ** Insertion-ordered dictionaries *)

Section dict.
Context {K V : Type} `{EqDecision K}.

(** [d.get(k)] *)
Fixpoint dict_get (k : K) (d : list (K * V)) : option V :=
  match d with
  | [] => None
  | (k', v) :: d' => if decide (k = k') then Some v else dict_get k d'
  end.

(** [d[k] = v]: an existing key keeps its position, a new key goes last. *)
Fixpoint dict_set (k : K) (v : V) (d : list (K * V)) : list (K * V) :=
  match d with
  | [] => [(k, v)]
  | (k', v') :: d' =>
      if decide (k = k') then (k, v) :: d' else (k', v') :: dict_set k v d'
  end.
End dict.

(** [collections.Counter(iterable)]: every element does
    [mapping[elem] = mapping.get(elem, 0) + 1]. *)
Section counter.
Context {K : Type} `{EqDecision K}.

Definition Counter_count (c : list (K * Z)) (elem : K) : list (K * Z) :=
  dict_set elem (default 0 (dict_get elem c) + 1) c.

Definition Counter (iterable : list K) : list (K * Z) :=
  foldl Counter_count [] iterable.

(** [c[k]] on a [Counter]: a missing key reads as zero. *)
Definition Counter_index (c : list (K * Z)) (k : K) : Z :=
  default 0 (dict_get k c).
End counter.

(** [max(iterable, key=key)]: the first element whose key is maximal. *)
Definition py_max {A} (key : A → Z) (l : list A) : result A :=
  match l with
  | [] => Err ValueError
  | x :: l' => Ok (foldl (λ best y, if key best <? key y then y else best) x l')
  end.

(** ** The tokenizer *)

Record BPETokenizer : Type := {
  vocab_size : Z;
  merges : list ((Z * Z) * Z);
  vocab : gmap Z bytes
}.

Definition set_merges (f : list ((Z * Z) * Z) → list ((Z * Z) * Z))
    (self : BPETokenizer) : BPETokenizer :=
  {| vocab_size := vocab_size self; merges := f (merges self);
     vocab := vocab self |}.

Definition set_vocab (f : gmap Z bytes → gmap Z bytes)
    (self : BPETokenizer) : BPETokenizer :=
  {| vocab_size := vocab_size self; merges := merges self;
     vocab := f (vocab self) |}.

(** [BPETokenizer.__init__] *)
Definition __init__ (vocab_size : Z) : result BPETokenizer :=
  Ok {| vocab_size := vocab_size; merges := []; vocab := ∅ |}.

(** [BPETokenizer._get_stats] *)
Definition _get_stats (ids : list Z) : list ((Z * Z) * Z) :=
  Counter (zip ids (drop 1 ids)).

(** The [while] loop of [_merge]: [i] is the scan position and [newids] the
    output so far.  Each turn advances [i], so [len(ids)] turns are enough
    (lemma [_merge_loop_spec]). *)
Fixpoint _merge_loop (fuel : nat) (ids : list Z) (pair : Z * Z) (idx : Z)
    (length : nat) (i : nat) (newids : list Z) : result (list Z) :=
  if (i <? length)%nat then
    match fuel with
    | O => Err OutOfFuel
    | S fuel =>
        matched ←
          (if (i <? length - 1)%nat then
             a ← py_index ids i;
             b ← py_index ids (i + 1);
             Ok (bool_decide ((a, b) = pair))
           else Ok false);
        if matched : bool then
          _merge_loop fuel ids pair idx length (i + 2) (newids ++ [idx])
        else
          a ← py_index ids i;
          _merge_loop fuel ids pair idx length (i + 1) (newids ++ [a])
    end
  else Ok newids.

(** [BPETokenizer._merge] *)
Definition _merge (ids : list Z) (pair : Z * Z) (idx : Z) : result (list Z) :=
  _merge_loop (length ids) ids pair idx (length ids) 0 [].

(** [self.vocab[k]] *)
Definition vocab_index (vocab : gmap Z bytes) (k : Z) : result bytes :=
  match vocab !! k with
  | Some b => Ok b
  | None => Err KeyError
  end.

(** [{i: bytes([i]) for i in range(256)}] *)
Definition base_vocab : gmap Z bytes :=
  foldl (λ m i, <[i := [i]]> m) ∅ (py_range 256).

(** One turn of the [for] loop of [train] at loop index [i].  [None] is the
    [break]; otherwise the turn yields the pair it merged together with the
    new [ids] and the updated tokenizer.  The [verbose] progress line only
    prints and is left out. *)
Definition train_body (i : Z) (ids : list Z) (self : BPETokenizer)
    : result (option ((Z * Z) * list Z * BPETokenizer)) :=
  let stats := _get_stats ids in
  if bool_decide (stats = []) then Ok None
  else
    '(pair', freq) ← py_max snd stats;
    let idx := 256 + i in
    ids ← _merge ids pair' idx;
    let self := set_merges (dict_set pair' idx) self in
    left ← vocab_index (vocab self) pair'.1;
    right ← vocab_index (vocab self) pair'.2;
    let self := set_vocab <[idx := left ++ right]> self in
    Ok (Some (pair', ids, self)).

(** The [for] loop of [train] over the remaining loop indices. *)
Fixpoint train_loop (range : list Z) (ids : list Z) (self : BPETokenizer)
    : result (list Z * BPETokenizer) :=
  match range with
  | [] => Ok (ids, self)
  | i :: range =>
      turn ← train_body i ids self;
      match turn with
      | None => Ok (ids, self)
      | Some (_, ids, self) => train_loop range ids self
      end
  end.

(** The assignments [self.merges[pair] = idx] the loop performs, in order. *)
Fixpoint train_loop_rules (range : list Z) (ids : list Z) (self : BPETokenizer)
    : list ((Z * Z) * Z) :=
  match range with
  | [] => []
  | i :: range =>
      match train_body i ids self with
      | Ok (Some (pair', ids, self)) =>
          (pair', 256 + i) :: train_loop_rules range ids self
      | _ => []
      end
  end.

(** [train] with the loop restricted to its first [turns] turns: the state
    the run is in after that many turns. *)
Definition train_upto (turns : nat) (self : BPETokenizer) (text : str)
    : result (list Z * BPETokenizer) :=
  ids ← encode_utf8 text;
  let self := set_vocab (λ _, base_vocab) self in
  let num_merges := vocab_size self - 256 in
  train_loop (take turns (py_range num_merges)) ids self.

(** [BPETokenizer.train] *)
Definition train (self : BPETokenizer) (text : str)
    : result (list Z * BPETokenizer) :=
  ids ← encode_utf8 text;
  let self := set_vocab (λ _, base_vocab) self in
  let num_merges := vocab_size self - 256 in
  train_loop (py_range num_merges) ids self.

(** The merge rules a call of [train] records, in order. *)
Definition train_rules (self : BPETokenizer) (text : str)
    : list ((Z * Z) * Z) :=
  match encode_utf8 text with
  | Ok ids =>
      let self := set_vocab (λ _, base_vocab) self in
      train_loop_rules (py_range (vocab_size self - 256)) ids self
  | Err _ => []
  end.

(** ASCII text as a [str]. *)
Definition char_of_ascii (a : Ascii.ascii) : char.
Proof.
  refine (Char (Z.of_N (Ascii.N_of_ascii a)) _).
  pose proof (Ascii.N_ascii_bounded a) as Hlt. unfold is_code_point.
  apply andb_true_intro; split; [apply Z.leb_le | apply Z.ltb_lt]; lia.
Defined.

Fixpoint str_of_string (s : String.string) : str :=
  match s with
  | String.EmptyString => []
  | String.String a s' => char_of_ascii a :: str_of_string s'
  end.

(** ** Reference definitions used to state the properties *)

(** The scan of [_merge] as a recursion on the part of [ids] still to be
    read: [_merge_spec] shows that the loop computes exactly this. *)
Fixpoint merge_pass (ids : list Z) (pair : Z * Z) (idx : Z) : list Z :=
  match ids with
  | [] => []
  | a :: rest =>
      match rest with
      | [] => [a]
      | b :: rest' =>
          if bool_decide ((a, b) = pair) then idx :: merge_pass rest' pair idx
          else a :: merge_pass rest pair idx
      end
  end.

(** The number of elements of [xs] equal to [k]. *)
Definition occurrences {K} `{EqDecision K} (k : K) (xs : list K) : Z :=
  Z.of_nat (length (filter (λ x, x = k) xs)).

(** The adjacent pairs of a sequence, left to right. *)
Definition adjacent_pairs (ids : list Z) : list (Z * Z) := zip ids (drop 1 ids).

(** The number of positions [i] with [ids[i] = a] and [ids[i+1] = b]. *)
Definition adjacent_count (ids : list Z) (a b : Z) : Z :=
  Z.of_nat (length (filter
    (λ i, ids !! i = Some a ∧ ids !! S i = Some b) (seq 0 (length ids)))).


(** Modelled from the spec: [idsToBytes] of section 4.1, which the source
    does not have: the concatenation of the vocabulary entries of the ids,
    failing when an id has no entry. *)
Fixpoint idsToBytes (ids : list Z) (vocabulary : gmap Z bytes) : option bytes :=
  match ids with
  | [] => Some []
  | id :: ids' =>
      b ← vocabulary !! id;
      bs ← idsToBytes ids' vocabulary;
      Some (b ++ bs)
  end.

(** The loop invariant of [train] before the turn of index [i], for a corpus
    whose bytes are [bs]: the vocabulary has exactly the ids below [256 + i],
    the first 256 of them standing for their own byte, and the sequence
    expands to the corpus. *)
Definition train_inv (bs : bytes) (i : Z) (ids : list Z)
    (vocabulary : gmap Z bytes) : Prop :=
  0 ≤ i
  ∧ (∀ k, is_Some (vocabulary !! k) ↔ 0 ≤ k < 256 + i)
  ∧ (∀ k, 0 ≤ k < 256 → vocabulary !! k = Some [k])
  ∧ idsToBytes ids vocabulary = Some bs.

(** The turns of the training loop as a relation: from loop index [i],
    sequence [ids] and tokenizer [self], the loop performs the merging turns
    that record [rules], one after the other, and arrives at [ids'] and
    [self']. *)
Inductive train_run : Z → list Z → BPETokenizer → list ((Z * Z) * Z) →
    list Z → BPETokenizer → Prop :=
  | train_run_nil i ids self : train_run i ids self [] ids self
  | train_run_cons i ids self pair ids1 self1 rules ids' self' :
      train_body i ids self = Ok (Some (pair, ids1, self1)) →
      train_run (i + 1) ids1 self1 rules ids' self' →
      train_run i ids self ((pair, 256 + i) :: rules) ids' self'.

(** The merge table after the assignments [rules] have been made. *)
Definition record_rules (rules : list ((Z * Z) * Z))
    (merges : list ((Z * Z) * Z)) : list ((Z * Z) * Z) :=
  foldl (λ d rule, dict_set rule.1 rule.2 d) merges rules.

(** The substitution a merge pass undoes: every [idx] becomes the pair. *)
Definition unmerge (ids : list Z) (pair : Z * Z) (idx : Z) : list Z :=
  ids ≫= λ x, if decide (x = idx) then [pair.1; pair.2] else [x].

(** The code points [encode("utf-8")] rejects: the surrogates. *)
Definition is_surrogate (c : char) : bool :=
  (0xD800 <=? ord c) && (ord c <=? 0xDFFF).

(** ** The text preprocessor: part-of-speech tags and lemmas

    [AdvancedTextPreprocessor], as far as [pos_tag_simple], [lemmatize] and
    [lemmatize_tokens] read it.  A Python [str] is a [list char] as before;
    [str.lower] is a function of the Python runtime and is a parameter of
    what uses it. *)

#[global] Instance char_eq_dec : EqDecision char.
Proof.
  intros [o1 H1] [o2 H2]. destruct (decide (o1 = o2)) as [->|Hne].
  - left. f_equal. apply proof_irrel.
  - right. intros [= ?]. done.
Defined.

(** [s.endswith(suffix)] *)
Definition endswith (s suffix : str) : bool :=
  bool_decide (drop (length s - length suffix) s = suffix).

(** The attributes read by the three methods: [lemma_dict] and the three
    lists of the dictionary [pos_patterns], whose keys are fixed. *)
Record AdvancedTextPreprocessor : Type := {
  lemma_dict : list (str * str);
  verb_endings : list str;
  noun_endings : list str;
  adj_endings : list str
}.

(** [AdvancedTextPreprocessor._initialize_dictionaries], these attributes. *)
Definition _initialize_dictionaries : AdvancedTextPreprocessor := {|
  lemma_dict :=
    (λ kv : string * string, (str_of_string kv.1, str_of_string kv.2)) <$>
    [("running", "run"); ("ran", "run"); ("runs", "run");
     ("better", "good"); ("best", "good");
     ("worse", "bad"); ("worst", "bad");
     ("children", "child"); ("teeth", "tooth"); ("feet", "foot");
     ("mice", "mouse"); ("geese", "goose"); ("men", "man");
     ("women", "woman"); ("people", "person");
     ("was", "be"); ("were", "be"); ("been", "be"); ("being", "be");
     ("am", "be"); ("are", "be"); ("is", "be");
     ("has", "have"); ("had", "have"); ("having", "have");
     ("does", "do"); ("did", "do"); ("doing", "do"); ("done", "do");
     ("went", "go"); ("gone", "go"); ("going", "go"); ("goes", "go");
     ("said", "say"); ("says", "say"); ("saying", "say")]%string;
  verb_endings := str_of_string <$> ["ing"; "ed"; "s"]%string;
  noun_endings := str_of_string <$> ["tion"; "ness"; "ment"; "ship"]%string;
  adj_endings := str_of_string <$> ["ful"; "less"; "ous"; "ive"; "able"]%string
|}.

(** [AdvancedTextPreprocessor.pos_tag_simple] *)
Definition pos_tag_simple (self : AdvancedTextPreprocessor)
    (tokens : list str) : list (str * str) :=
  (λ token,
     if existsb (endswith token) (verb_endings self)
     then (token, str_of_string "VERB")
     else if existsb (endswith token) (noun_endings self)
     then (token, str_of_string "NOUN")
     else if existsb (endswith token) (adj_endings self)
     then (token, str_of_string "ADJ")
     else (token, str_of_string "OTHER")) <$> tokens.

Section lower.
Variable lower : list char → list char.

(** [AdvancedTextPreprocessor.lemmatize]; [word_lower[:-n]] is
    [take (length word_lower - n) word_lower]. *)
Definition lemmatize (self : AdvancedTextPreprocessor) (word : str)
    (pos : str) : str :=
  let word_lower := lower word in
  match dict_get word_lower (lemma_dict self) with
  | Some lemma => lemma
  | None =>
      if bool_decide (pos = str_of_string "v") then
        if endswith word_lower (str_of_string "ing")
        then take (length word_lower - 3) word_lower
        else if endswith word_lower (str_of_string "ed")
        then take (length word_lower - 2) word_lower
        else if endswith word_lower (str_of_string "s")
                && bool_decide (2 < length word_lower)%nat
        then take (length word_lower - 1) word_lower
        else word_lower
      else if bool_decide (pos = str_of_string "n") then
        if endswith word_lower (str_of_string "es")
        then take (length word_lower - 2) word_lower
        else if endswith word_lower (str_of_string "s")
                && bool_decide (2 < length word_lower)%nat
        then take (length word_lower - 1) word_lower
        else word_lower
      else word_lower
  end.

(** [AdvancedTextPreprocessor.lemmatize_tokens]; [pos_tags] is [None] or a
    list, and an empty list is as false as [None]. *)
Definition lemmatize_tokens (self : AdvancedTextPreprocessor)
    (tokens : list str) (pos_tags : option (list (str * str))) : list str :=
  match pos_tags with
  | Some ((_ :: _) as pos_tags) =>
      (λ '((word, pos), token),
         if bool_decide (pos = str_of_string "VERB")
         then lemmatize self token (str_of_string "v")
         else if bool_decide (pos = str_of_string "NOUN")
         then lemmatize self token (str_of_string "n")
         else lemmatize self token (str_of_string "n"))
      <$> zip pos_tags tokens
  | _ => (λ token, lemmatize self token (str_of_string "n")) <$> tokens
  end.
End lower.

(** ** The error monad *)

Lemma bind_Ok {A B} (f : A → result B) (m : result A) (b : B) :
  m ≫= f = Ok b ↔ ∃ a, m = Ok a ∧ f a = Ok b.
Proof.
  destruct m as [a|e]; simpl.
  - split; [eauto | by intros (a' & [= <-] & ?)].
  - split; [done | by intros (a' & ? & ?)].
Qed.

Lemma py_index_Ok {A} (l : list A) (i : nat) (x : A) :
  l !! i = Some x → py_index l i = Ok x.
Proof. intros Hx. unfold py_index. by rewrite Hx. Qed.

(** ** [_merge] *)

Section merge.
Variables (pair : Z * Z) (idx : Z).

Lemma merge_pass_nil : merge_pass [] pair idx = [].
Proof. done. Qed.

Lemma merge_pass_one a : merge_pass [a] pair idx = [a].
Proof. done. Qed.

Lemma merge_pass_hit a b rest :
  (a, b) = pair →
  merge_pass (a :: b :: rest) pair idx = idx :: merge_pass rest pair idx.
Proof. intros Heq. simpl. by rewrite bool_decide_eq_true_2. Qed.

Lemma merge_pass_miss a b rest :
  (a, b) ≠ pair →
  merge_pass (a :: b :: rest) pair idx = a :: merge_pass (b :: rest) pair idx.
Proof. intros Hne. simpl. by rewrite bool_decide_eq_false_2. Qed.

(** Induction along the scan: the step is by one or by two. *)
Lemma scan_ind (P : list Z → Prop) :
  P [] → (∀ a, P [a]) →
  (∀ a b rest, P (b :: rest) → P rest → P (a :: b :: rest)) →
  ∀ ids, P ids.
Proof.
  intros Hnil Hone Hstep ids.
  assert (P ids ∧ ∀ a, P (a :: ids)) as [? _]; [|done].
  induction ids as [|b rest [IH1 IH2]]; [by split|].
  split; [apply IH2 | intros a; by apply Hstep].
Qed.

(** The loop at position [i] appends the pass over the unread suffix. *)
Lemma _merge_loop_spec ids fuel i newids :
  (length ids ≤ i + fuel)%nat →
  _merge_loop fuel ids pair idx (length ids) i newids
  = Ok (newids ++ merge_pass (drop i ids) pair idx).
Proof.
  revert i newids. induction fuel as [|fuel IH]; intros i newids Hfuel.
  - simpl. case_eq (i <? length ids)%nat; intros Hi.
    + apply Nat.ltb_lt in Hi. lia.
    + apply Nat.ltb_ge in Hi. by rewrite drop_ge, app_nil_r.
  - simpl. case_eq (i <? length ids)%nat; intros Hi.
    2:{ apply Nat.ltb_ge in Hi. by rewrite drop_ge, app_nil_r. }
    apply Nat.ltb_lt in Hi.
    destruct (lookup_lt_is_Some_2 ids i Hi) as [a Ha].
    rewrite !(py_index_Ok _ _ _ Ha), (drop_S _ _ _ Ha).
    case_eq (i <? length ids - 1)%nat; intros Hi1.
    + apply Nat.ltb_lt in Hi1.
      destruct (lookup_lt_is_Some_2 ids (S i)) as [b Hb]; [lia|].
      replace (i + 1)%nat with (S i) by lia.
      rewrite (py_index_Ok _ _ _ Hb), (drop_S _ _ _ Hb).
      cbn [mbind result_bind]. case_bool_decide as Hp.
      * rewrite IH by lia. replace (i + 2)%nat with (S (S i)) by lia.
        by rewrite merge_pass_hit, <-app_assoc.
      * rewrite IH by lia. rewrite (drop_S _ _ _ Hb).
        by rewrite merge_pass_miss, <-app_assoc.
    + apply Nat.ltb_ge in Hi1. cbn [mbind result_bind]. rewrite IH by lia.
      replace (i + 1)%nat with (S i) by lia.
      rewrite (drop_ge ids (S i)) by lia. by rewrite <-app_assoc.
Qed.

Lemma _merge_spec ids : _merge ids pair idx = Ok (merge_pass ids pair idx).
Proof. unfold _merge. by rewrite _merge_loop_spec by lia. Qed.
End merge.

Section merge_step.
Variables (ids : list Z) (pair : Z * Z) (idx : Z).

(** A turn of the loop at a position where the pair stands. *)
Lemma _merge_loop_hit fuel i newids a b :
  ids !! i = Some a → ids !! (i + 1)%nat = Some b → (a, b) = pair →
  _merge_loop (S fuel) ids pair idx (length ids) i newids
  = _merge_loop fuel ids pair idx (length ids) (i + 2) (newids ++ [idx]).
Proof.
  intros Ha Hb Hp. simpl.
  pose proof (lookup_lt_Some _ _ _ Ha). pose proof (lookup_lt_Some _ _ _ Hb).
  rewrite (proj2 (Nat.ltb_lt _ _)), (proj2 (Nat.ltb_lt i _)) by lia.
  rewrite (py_index_Ok _ _ _ Ha), (py_index_Ok _ _ _ Hb).
  cbn [mbind result_bind]. by rewrite bool_decide_eq_true_2.
Qed.

(** A turn of the loop at any other position: the last one, or one where
    the current and the next element are not the pair. *)
Lemma _merge_loop_miss fuel i newids a :
  ids !! i = Some a →
  (∀ b, ids !! (i + 1)%nat = Some b → (a, b) ≠ pair) →
  _merge_loop (S fuel) ids pair idx (length ids) i newids
  = _merge_loop fuel ids pair idx (length ids) (i + 1) (newids ++ [a]).
Proof.
  intros Ha Hnext. simpl. pose proof (lookup_lt_Some _ _ _ Ha).
  rewrite (proj2 (Nat.ltb_lt i _)) by lia.
  rewrite !(py_index_Ok _ _ _ Ha).
  case_eq (i <? length ids - 1)%nat; intros Hi1; [|done].
  apply Nat.ltb_lt in Hi1.
  destruct (lookup_lt_is_Some_2 ids (i + 1)) as [b Hb]; [lia|].
  rewrite (py_index_Ok _ _ _ Hb). cbn [mbind result_bind].
  by rewrite bool_decide_eq_false_2 by by apply Hnext.
Qed.

(** Past the end the loop returns what it has emitted. *)
Lemma _merge_loop_end fuel i newids :
  (length ids ≤ i)%nat →
  _merge_loop fuel ids pair idx (length ids) i newids = Ok newids.
Proof.
  intros Hi. destruct fuel; simpl; by rewrite (proj2 (Nat.ltb_ge _ _)).
Qed.
End merge_step.

(** ** What a pass keeps *)

Lemma adjacent_pairs_cons a ids :
  adjacent_pairs (a :: ids)
  = match ids with [] => [] | b :: _ => (a, b) :: adjacent_pairs ids end.
Proof. by destruct ids. Qed.

Section merge_pass.
Variables (pair : Z * Z) (idx : Z).

Lemma merge_pass_head b rest :
  ∃ out, merge_pass (b :: rest) pair idx = idx :: out
         ∨ merge_pass (b :: rest) pair idx = b :: out.
Proof.
  destruct rest as [|c rest]; [by exists []; right|].
  destruct (decide ((b, c) = pair)) as [Hp|Hp].
  - rewrite merge_pass_hit by done. eauto.
  - rewrite merge_pass_miss by done. eauto.
Qed.

Lemma merge_pass_elem ids x : x ∈ merge_pass ids pair idx → x = idx ∨ x ∈ ids.
Proof.
  revert x. induction ids as [| a | a b rest IH1 IH2] using scan_ind;
    intros x; [by right | by right |].
  destruct (decide ((a, b) = pair)) as [Hp|Hp].
  - rewrite merge_pass_hit by done. intros [->|Hx]%elem_of_cons; [by left|].
    destruct (IH2 _ Hx); [by left | right].
    by do 2 (apply elem_of_cons; right).
  - rewrite merge_pass_miss by done. intros [->|Hx]%elem_of_cons.
    + right. by apply elem_of_cons; left.
    + destruct (IH1 _ Hx); [by left | right]. by apply elem_of_cons; right.
Qed.

Lemma merge_pass_length ids :
  (length (merge_pass ids pair idx) ≤ length ids)%nat.
Proof.
  induction ids as [| a | a b rest IH1 IH2] using scan_ind; [done..|].
  destruct (decide ((a, b) = pair)) as [Hp|Hp].
  - rewrite merge_pass_hit by done. simpl in *. lia.
  - rewrite merge_pass_miss by done. simpl in *. lia.
Qed.

(** Two neighbours in the output are neighbours of the input, other than
    the merged pair, unless one of them is the new id. *)
Lemma merge_pass_adjacent ids x y :
  (x, y) ∈ adjacent_pairs (merge_pass ids pair idx) →
  x = idx ∨ y = idx ∨ ((x, y) ∈ adjacent_pairs ids ∧ (x, y) ≠ pair).
Proof.
  revert x y. induction ids as [| a | a b rest IH1 IH2] using scan_ind;
    intros x y; [by intros ?%elem_of_nil..|].
  rewrite (adjacent_pairs_cons a (b :: rest)).
  destruct (decide ((a, b) = pair)) as [Hp|Hp].
  - rewrite merge_pass_hit, adjacent_pairs_cons by done.
    destruct (merge_pass rest pair idx) as [|c out] eqn:Hout;
      [by intros ?%elem_of_nil|].
    intros [[= -> ->]|Hxy]%elem_of_cons; [by left|].
    destruct (IH2 _ _ Hxy) as [?|[?|[Hin ?]]]; [by left | by right; left|].
    right; right. split; [|done]. apply elem_of_cons; right.
    destruct rest as [|c' rest]; [by apply elem_of_nil in Hin|].
    rewrite adjacent_pairs_cons. by apply elem_of_cons; right.
  - rewrite merge_pass_miss, adjacent_pairs_cons by done.
    destruct (merge_pass_head b rest) as [out [Hout|Hout]]; rewrite Hout;
      rewrite <-Hout.
    + intros [[= -> ->]|Hxy]%elem_of_cons; [by right; left|].
      destruct (IH1 _ _ Hxy) as [?|[?|[Hin ?]]]; [by left | by right; left|].
      right; right. split; [|done]. by apply elem_of_cons; right.
    + intros [[= -> ->]|Hxy]%elem_of_cons.
      * right; right. split; [by apply elem_of_cons; left | done].
      * destruct (IH1 _ _ Hxy) as [?|[?|[Hin ?]]];
          [by left | by right; left|].
        right; right. split; [|done]. by apply elem_of_cons; right.
Qed.
End merge_pass.

(** The pass leaves the byte expansion alone when the new id stands for the
    bytes of the pair. *)
Lemma merge_pass_idsToBytes (vocabulary : gmap Z bytes) ids l r idx bl br bs :
  vocabulary !! l = Some bl → vocabulary !! r = Some br →
  vocabulary !! idx = None →
  idsToBytes ids vocabulary = Some bs →
  idsToBytes (merge_pass ids (l, r) idx) (<[idx := bl ++ br]> vocabulary)
  = Some bs.
Proof.
  intros Hl Hr Hidx. revert bs.
  induction ids as [| a | a b rest IH1 IH2] using scan_ind; intros bs;
    [done| |].
  - simpl. destruct (vocabulary !! a) as [ba|] eqn:Ha; [|done].
    rewrite lookup_insert_ne by congruence. by rewrite Ha.
  - destruct (decide ((a, b) = (l, r))) as [[= -> ->]|Hp].
    + rewrite merge_pass_hit by done. simpl. rewrite Hl, Hr. simpl.
      destruct (idsToBytes rest vocabulary) as [bs'|] eqn:Hrest; [|done].
      simpl. intros [= <-]. rewrite lookup_insert_eq. simpl.
      rewrite (IH2 _ eq_refl). simpl. by rewrite app_assoc.
    + rewrite merge_pass_miss by done.
      change (idsToBytes (a :: b :: rest) vocabulary)
        with (ba ← vocabulary !! a;
              bs' ← idsToBytes (b :: rest) vocabulary; Some (ba ++ bs')).
      destruct (vocabulary !! a) as [ba|] eqn:Ha; [|done].
      destruct (idsToBytes (b :: rest) vocabulary) as [bs'|] eqn:Hrest;
        [|done].
      cbn [mbind option_bind]. intros [= <-].
      cbn [idsToBytes]. rewrite lookup_insert_ne by congruence.
      rewrite Ha. cbn [mbind option_bind]. by rewrite (IH1 _ eq_refl).
Qed.

(** ** Insertion-ordered dictionaries and [Counter] *)

Section dict_facts.
Context {K V : Type} `{EqDecision K}.
Implicit Types (d : list (K * V)) (k : K) (v : V).

Lemma dict_get_set d k k' v :
  dict_get k' (dict_set k v d)
  = if decide (k' = k) then Some v else dict_get k' d.
Proof.
  induction d as [|[k0 v0] d IH]; simpl.
  - by destruct (decide (k' = k)).
  - destruct (decide (k = k0)) as [->|Hk]; simpl.
    + by destruct (decide (k' = k0)).
    + rewrite IH. destruct (decide (k' = k0)) as [->|]; [|done].
      by rewrite decide_False by done.
Qed.

Lemma dict_get_None d k : dict_get k d = None ↔ k ∉ d.*1.
Proof.
  induction d as [|[k0 v0] d IH]; simpl.
  - split; [intros _; apply not_elem_of_nil | done].
  - rewrite not_elem_of_cons. destruct (decide (k = k0)) as [Hk|Hk].
    + split; [done | by intros [? _]].
    + rewrite IH. split; [by intros ? | by intros [_ ?]].
Qed.

Lemma dict_get_elem_of d k v : dict_get k d = Some v → (k, v) ∈ d.
Proof.
  induction d as [|[k0 v0] d IH]; simpl; [done|].
  destruct (decide (k = k0)) as [->|].
  - intros [= ->]. by apply elem_of_cons; left.
  - intros ?. apply elem_of_cons; right. by apply IH.
Qed.

Lemma elem_of_dict_get d k v : NoDup d.*1 → (k, v) ∈ d → dict_get k d = Some v.
Proof.
  induction d as [|[k0 v0] d IH]; simpl; [by intros _ ?%elem_of_nil|].
  intros [Hk0 Hd]%NoDup_cons [[= -> ->]|Hin]%elem_of_cons.
  - by rewrite decide_True.
  - rewrite decide_False; [by apply IH|].
    intros ->. apply Hk0. by apply (list_elem_of_fmap_2 fst _ (k0, v)).
Qed.

(** A new key goes to the end, an old one stays where it is. *)
Lemma dict_set_new d k v : k ∉ d.*1 → dict_set k v d = d ++ [(k, v)].
Proof.
  induction d as [|[k0 v0] d IH]; simpl; [done|].
  intros [? ?]%not_elem_of_cons. rewrite decide_False by done.
  by rewrite IH.
Qed.

Lemma dict_set_keys d k v :
  (dict_set k v d).*1 = if decide (k ∈ d.*1) then d.*1 else d.*1 ++ [k].
Proof.
  induction d as [|[k0 v0] d IH]; [done|].
  cbn [dict_set]. rewrite fmap_cons. cbn [fst].
  destruct (decide (k = k0)) as [->|Hk]; rewrite fmap_cons; cbn [fst].
  - by rewrite decide_True by (apply elem_of_cons; by left).
  - rewrite IH. destruct (decide (k ∈ d.*1)) as [Hin|Hin].
    + by rewrite decide_True by (apply elem_of_cons; by right).
    + by rewrite decide_False by (apply not_elem_of_cons; done).
Qed.

Lemma dict_set_NoDup d k v : NoDup d.*1 → NoDup (dict_set k v d).*1.
Proof.
  intros Hd. rewrite dict_set_keys. destruct (decide (k ∈ d.*1)); [done|].
  apply NoDup_app. split_and!; [done | | apply NoDup_singleton].
  intros x Hx ->%list_elem_of_singleton. done.
Qed.
End dict_facts.

Section counter_facts.
Context {K : Type} `{EqDecision K}.
Implicit Types (c : list (K * Z)) (k : K) (xs : list K).

Lemma occurrences_cons k x xs :
  occurrences k (x :: xs)
  = (if decide (x = k) then 1 else 0) + occurrences k xs.
Proof.
  unfold occurrences. rewrite filter_cons.
  destruct (decide (x = k)); simpl; lia.
Qed.

Lemma occurrences_pos k xs : 0 < occurrences k xs ↔ k ∈ xs.
Proof.
  induction xs as [|x xs IH]; [by split; [|intros ?%elem_of_nil]|].
  rewrite occurrences_cons, elem_of_cons.
  assert (0 ≤ occurrences k xs) by (unfold occurrences; lia).
  destruct (decide (x = k)) as [->|]; [split; [by left|lia]|].
  rewrite Z.add_0_l, IH. split; [by right | by intros [?|?]].
Qed.

Lemma Counter_index_foldl xs c k :
  Counter_index (foldl Counter_count c xs) k
  = Counter_index c k + occurrences k xs.
Proof.
  revert c. induction xs as [|x xs IH]; intros c; simpl.
  - unfold occurrences. simpl. lia.
  - rewrite IH, occurrences_cons. unfold Counter_index, Counter_count.
    rewrite dict_get_set. destruct (decide (k = x)) as [->|Hk].
    + rewrite decide_True by done. simpl. lia.
    + rewrite decide_False by done. lia.
Qed.

Lemma Counter_foldl_pos xs c :
  (∀ k v, dict_get k c = Some v → 0 < v) →
  ∀ k v, dict_get k (foldl Counter_count c xs) = Some v → 0 < v.
Proof.
  revert c. induction xs as [|x xs IH]; intros c Hc; simpl; [done|].
  apply IH. intros k v. unfold Counter_count. rewrite dict_get_set.
  destruct (decide (k = x)) as [->|]; [|by apply Hc].
  intros [= <-]. destruct (dict_get x c) as [v'|] eqn:Hx; simpl; [|lia].
  specialize (Hc _ _ Hx). lia.
Qed.

Lemma Counter_foldl_NoDup xs c :
  NoDup c.*1 → NoDup (foldl Counter_count c xs).*1.
Proof.
  revert c. induction xs as [|x xs IH]; intros c Hc; simpl; [done|].
  apply IH. by apply dict_set_NoDup.
Qed.

Lemma Counter_NoDup xs : NoDup (Counter xs).*1.
Proof. apply Counter_foldl_NoDup. constructor. Qed.

Lemma Counter_index_spec xs k : Counter_index (Counter xs) k = occurrences k xs.
Proof. unfold Counter. by rewrite Counter_index_foldl. Qed.

(** A key is stored exactly when it occurs, with its number of
    occurrences. *)
Lemma elem_of_Counter xs k v :
  (k, v) ∈ Counter xs ↔ v = occurrences k xs ∧ 0 < v.
Proof.
  pose proof (Counter_index_spec xs k) as Hidx. unfold Counter_index in Hidx.
  split.
  - intros Hin%(elem_of_dict_get _ _ _ (Counter_NoDup xs)).
    rewrite Hin in Hidx. simpl in Hidx. split; [done|].
    by eapply (Counter_foldl_pos xs []).
  - intros [-> Hpos]. apply dict_get_elem_of.
    destruct (dict_get k (Counter xs)) as [v'|]; simpl in Hidx; [|lia].
    by rewrite Hidx.
Qed.

Lemma Counter_key_elem_of xs k v : (k, v) ∈ Counter xs → k ∈ xs.
Proof. intros [-> ?]%elem_of_Counter. by apply occurrences_pos. Qed.

End counter_facts.

(** ** [_get_stats] *)

Lemma length_filter_fmap_S (P : nat → Prop) `{∀ i, Decision (P i)} l :
  length (filter P (S <$> l)) = length (filter (λ i, P (S i)) l).
Proof.
  induction l as [|i l IH]; [done|].
  rewrite fmap_cons, !filter_cons. destruct (decide (P (S i))); simpl; lia.
Qed.

Lemma adjacent_count_cons a0 ids a b :
  adjacent_count (a0 :: ids) a b
  = (if decide (a0 = a ∧ ids !! 0%nat = Some b) then 1 else 0)
    + adjacent_count ids a b.
Proof.
  assert (length (filter (λ i, (a0 :: ids) !! i = Some a
                                ∧ (a0 :: ids) !! S i = Some b)
                   (seq 1 (length ids)))
          = length (filter (λ i, ids !! i = Some a ∧ ids !! S i = Some b)
                      (seq 0 (length ids)))) as Hshift.
  { by rewrite <-fmap_S_seq, length_filter_fmap_S. }
  unfold adjacent_count. cbn [length seq]. rewrite filter_cons.
  destruct (decide (a0 = a ∧ ids !! 0%nat = Some b)) as [[-> Hb]|Hn].
  - rewrite decide_True by done. cbn [length]. rewrite Hshift. lia.
  - rewrite decide_False; [rewrite Hshift; lia|].
    intros [[= ->] ?]. by apply Hn.
Qed.

Lemma occurrences_adjacent_pairs ids a b :
  occurrences (a, b) (adjacent_pairs ids) = adjacent_count ids a b.
Proof.
  induction ids as [|a0 ids IH]; [done|].
  rewrite adjacent_pairs_cons, adjacent_count_cons, <-IH.
  destruct ids as [|b0 ids].
  - rewrite decide_False by (by intros [_ ?]). done.
  - rewrite occurrences_cons. cbn [lookup list_lookup].
    destruct (decide ((a0, b0) = (a, b))) as [[= -> ->]|Hp].
    + by rewrite decide_True.
    + rewrite decide_False; [done|]. intros [-> [= ->]]. by apply Hp.
Qed.

Lemma adjacent_pairs_short ids : (length ids < 2)%nat → adjacent_pairs ids = [].
Proof. destruct ids as [|a [|b ids]]; simpl; [done | done | lia]. Qed.


(** C9: [_get_stats] maps every pair to the number of positions at which
    it stands in the sequence.  Reading a pair off the counter gives that
    number; the keys stored are exactly the pairs standing at some position,
    each once, with that number as the value; a sequence shorter than two
    gives the empty mapping. *)
Theorem get_stats_counts (ids : list Z) :
  (∀ a b, Counter_index (_get_stats ids) (a, b) = adjacent_count ids a b)
  ∧ (∀ a b c, ((a, b), c) ∈ _get_stats ids
              ↔ c = adjacent_count ids a b ∧ 0 < c)
  ∧ NoDup (_get_stats ids).*1
  ∧ ((length ids < 2)%nat → _get_stats ids = []).
Proof.
  unfold _get_stats. fold (adjacent_pairs ids). split_and!.
  - intros a b. by rewrite Counter_index_spec, occurrences_adjacent_pairs.
  - intros a b c. by rewrite elem_of_Counter, occurrences_adjacent_pairs.
  - apply Counter_NoDup.
  - intros Hlen. by rewrite adjacent_pairs_short.
Qed.

Lemma get_stats_counts_witness :
  Counter_index (_get_stats [97; 97; 97; 98]) (97, 97) = 2
  ∧ _get_stats [97] = [].
Proof.
  destruct (get_stats_counts [97; 97; 97; 98]) as (Hidx & _).
  destruct (get_stats_counts [97]) as (_ & _ & _ & Hshort).
  split; [by rewrite Hidx | apply Hshort; simpl; lia].
Defined.

(** ** [max] *)

Section py_max.
Context {A : Type} (key : A → Z).

Lemma py_max_foldl_spec l x :
  ∃ l1 l2, x :: l
           = l1 ++ foldl (λ best y, if key best <? key y then y else best) x l
                :: l2
    ∧ Forall (λ y, key y
                   < key (foldl (λ best y, if key best <? key y then y
                                           else best) x l)) l1
    ∧ Forall (λ y, key y
                   ≤ key (foldl (λ best y, if key best <? key y then y
                                           else best) x l)) l2.
Proof.
  induction l as [|y l IH] using rev_ind.
  - exists [], []. by split_and!.
  - rewrite foldl_snoc. destruct IH as (l1 & l2 & Heq & Hl1 & Hl2).
    set (best := foldl _ x l) in *. case_eq (key best <? key y); intros Hlt.
    + apply Z.ltb_lt in Hlt. exists (x :: l), []. split_and!.
      * by rewrite app_comm_cons.
      * rewrite Heq. apply Forall_app. split; [|constructor].
        -- eapply Forall_impl; [exact Hl1|]. simpl. intros; lia.
        -- done.
        -- eapply Forall_impl; [exact Hl2|]. simpl. intros; lia.
      * constructor.
    + apply Z.ltb_ge in Hlt. exists l1, (l2 ++ [y]). split_and!.
      * by rewrite app_comm_cons, Heq, <-app_assoc.
      * done.
      * apply Forall_app. split; [done|]. by repeat constructor.
Qed.

(** [max] returns the first element of maximal key: everything before it
    has a smaller key, nothing after it has a larger one. *)
Lemma py_max_spec l :
  l ≠ [] →
  ∃ x l1 l2, py_max key l = Ok x ∧ l = l1 ++ x :: l2
    ∧ Forall (λ y, key y < key x) l1 ∧ Forall (λ y, key y ≤ key x) l2.
Proof.
  destruct l as [|x l]; [done|]. intros _.
  destruct (py_max_foldl_spec l x) as (l1 & l2 & Heq & Hl1 & Hl2).
  eexists _, l1, l2. by split_and!.
Qed.

Lemma py_max_elem_of l x : py_max key l = Ok x → x ∈ l.
Proof.
  destruct l as [|x0 l]; [done|]. intros Hmax.
  destruct (py_max_spec (x0 :: l)) as (x' & l1 & l2 & Hx' & -> & _); [done|].
  rewrite Hmax in Hx'. injection Hx' as ->.
  apply elem_of_app; right. by apply elem_of_cons; left.
Qed.
End py_max.

(** ** The merge selection of [train] *)

Lemma train_body_break i ids self :
  _get_stats ids = [] → train_body i ids self = Ok None.
Proof. intros Hnil. unfold train_body. by rewrite Hnil. Qed.

Lemma train_body_selected i ids self pair ids' self' :
  train_body i ids self = Ok (Some (pair, ids', self')) →
  ∃ freq, _get_stats ids ≠ []
          ∧ py_max snd (_get_stats ids) = Ok (pair, freq).
Proof.
  unfold train_body. case_bool_decide as Hnil; [done|].
  destruct (py_max snd (_get_stats ids)) as [[pair0 freq]|] eqn:Hmax; [|done].
  cbn [mbind result_bind]. intros Hrest. exists freq. split; [done|].
  destruct (_merge ids pair0 (256 + i)); [|done].
  cbn [mbind result_bind] in Hrest.
  destruct (vocab_index _ pair0.1); [|done].
  destruct (vocab_index _ pair0.2); [|done].
  cbn [mbind result_bind] in Hrest. by injection Hrest as -> _ _.
Qed.




(** ** The scan of [_merge] *)

(** C4: at a position where the current and the next element are the pair
    the loop emits the new id and moves on by two; at every other position
    it emits the current element and moves on by one; past the end it
    returns what it emitted.  Started at position 0 with nothing emitted,
    it therefore rewrites the pair greedily from the left without overlap:
    [97, 97, 97] with pair (97, 97) becomes [idx, 97]. *)
Theorem merge_scan (ids : list Z) (pair : Z * Z) (idx : Z) :
  (∀ fuel i newids a b,
     ids !! i = Some a → ids !! (i + 1)%nat = Some b → (a, b) = pair →
     _merge_loop (S fuel) ids pair idx (length ids) i newids
     = _merge_loop fuel ids pair idx (length ids) (i + 2) (newids ++ [idx]))
  ∧ (∀ fuel i newids a,
       ids !! i = Some a →
       (∀ b, ids !! (i + 1)%nat = Some b → (a, b) ≠ pair) →
       _merge_loop (S fuel) ids pair idx (length ids) i newids
       = _merge_loop fuel ids pair idx (length ids) (i + 1) (newids ++ [a]))
  ∧ (∀ fuel i newids,
       (length ids ≤ i)%nat →
       _merge_loop fuel ids pair idx (length ids) i newids = Ok newids)
  ∧ _merge ids pair idx = Ok (merge_pass ids pair idx)
  ∧ _merge [97; 97; 97] (97, 97) idx = Ok [idx; 97]
  ∧ (idx ≠ 97 → _merge [97; 97; 97] (97, 97) idx ≠ Ok [idx; idx]).
Proof.
  split_and!.
  - apply _merge_loop_hit.
  - apply _merge_loop_miss.
  - apply _merge_loop_end.
  - apply _merge_spec.
  - by rewrite _merge_spec.
  - intros Hne. rewrite _merge_spec. intros [= Heq]. by apply Hne.
Qed.

Lemma merge_scan_witness :
  _merge [97; 97; 97] (97, 97) 256 = Ok [256; 97]
  ∧ _merge [97; 97; 97] (97, 97) 256 ≠ Ok [256; 256]
  ∧ _merge_loop 3 [97; 97; 97] (97, 97) 256 3 0 []
    = _merge_loop 2 [97; 97; 97] (97, 97) 256 3 2 [256]
  ∧ _merge_loop 2 [97; 97; 97] (97, 97) 256 3 2 [256]
    = _merge_loop 1 [97; 97; 97] (97, 97) 256 3 3 [256; 97].
Proof.
  destruct (merge_scan [97; 97; 97] (97, 97) 256)
    as (Hhit & Hmiss & _ & _ & Hex & Hnever).
  split_and!; [done | by apply Hnever | |].
  - by apply (Hhit 2%nat 0%nat [] 97 97).
  - apply (Hmiss 1%nat 2%nat [256] 97); [done|]. by intros b [=].
Defined.

(** ** The text and the initial vocabulary *)

Lemma is_code_point_range c : is_code_point c = true → 0 ≤ c < 0x110000.
Proof. unfold is_code_point. intros [?%Z.leb_le ?%Z.ltb_lt]%andb_prop. lia. Qed.

Lemma encode_char_bytes c bs :
  encode_char c = Ok bs → Forall (λ b, 0 ≤ b < 256) bs.
Proof.
  pose proof (is_code_point_range _ (ord_range c)) as Hc. unfold encode_char.
  cbv zeta. repeat case_match; intros [= <-];
    repeat match goal with
           | H : (_ <? _) = true |- _ => apply Z.ltb_lt in H
           | H : (_ <? _) = false |- _ => apply Z.ltb_ge in H
           end;
    repeat constructor;
    try (apply Z.add_nonneg_nonneg; [lia|]);
    try (apply Z.div_pos; lia);
    try (pose proof (Z.mod_pos_bound (ord c) 64);
         pose proof (Z.mod_pos_bound (ord c / 64) 64);
         pose proof (Z.mod_pos_bound (ord c / 4096) 64); lia).
  - assert (ord c / 64 < 32) by (apply Z.div_lt_upper_bound; lia). lia.
  - assert (ord c / 4096 < 16) by (apply Z.div_lt_upper_bound; lia). lia.
  - assert (ord c / 262144 < 5) by (apply Z.div_lt_upper_bound; lia). lia.
Qed.

Lemma encode_utf8_bytes text bs :
  encode_utf8 text = Ok bs → Forall (λ b, 0 ≤ b < 256) bs.
Proof.
  revert bs. induction text as [|c text IH]; intros bs; simpl.
  - intros [= <-]. constructor.
  - destruct (encode_char c) as [b|] eqn:Hc; [|done].
    destruct (encode_utf8 text) as [bs'|]; [|done].
    cbn [mbind result_bind]. intros [= <-]. apply Forall_app. split.
    + by eapply encode_char_bytes.
    + by apply IH.
Qed.

Lemma foldl_insert_byte_lookup (l : list Z) (m : gmap Z (list Z)) k :
  foldl (λ m i, <[i := [i]]> m) m l !! k
  = if decide (k ∈ l) then Some [k] else m !! k.
Proof.
  revert m. induction l as [|i l IH]; intros m; simpl; [done|].
  - rewrite IH. destruct (decide (k ∈ l)) as [Hin|Hin].
    + by rewrite decide_True by (apply elem_of_cons; by right).
    + destruct (decide (k = i)) as [->|Hne].
      * rewrite decide_True by (apply elem_of_cons; by left).
        by rewrite lookup_insert_eq.
      * rewrite decide_False by (by apply not_elem_of_cons).
        by rewrite lookup_insert_ne.
Qed.

Lemma base_vocab_lookup k :
  base_vocab !! k = if decide (0 ≤ k < 256) then Some [k] else None.
Proof.
  unfold base_vocab, py_range. rewrite foldl_insert_byte_lookup.
  destruct (decide (0 ≤ k < 256)) as [Hk|Hk].
  - rewrite decide_True; [done|]. apply elem_of_seqZ. lia.
  - rewrite decide_False; [done|]. rewrite elem_of_seqZ. lia.
Qed.

Lemma idsToBytes_Some_elem ids (vocabulary : gmap Z (list Z)) bs x :
  idsToBytes ids vocabulary = Some bs → x ∈ ids → is_Some (vocabulary !! x).
Proof.
  revert bs. induction ids as [|a ids IH]; intros bs; simpl;
    [by intros _ ?%elem_of_nil|].
  destruct (vocabulary !! a) as [ba|] eqn:Ha; [|done].
  destruct (idsToBytes ids vocabulary) as [bs'|]; [|done].
  intros _ [->|Hin]%elem_of_cons; [by rewrite Ha | by eapply IH].
Qed.

Lemma idsToBytes_base bs :
  Forall (λ b, 0 ≤ b < 256) bs → idsToBytes bs base_vocab = Some bs.
Proof.
  induction 1 as [|b bs Hb _ IH]; [done|]. cbn [idsToBytes].
  rewrite base_vocab_lookup, decide_True, IH by done. done.
Qed.

Lemma train_inv_base bs :
  Forall (λ b, 0 ≤ b < 256) bs → train_inv bs 0 bs base_vocab.
Proof.
  intros Hbs. split_and!; [done | | | by apply idsToBytes_base].
  - intros k. rewrite base_vocab_lookup.
    destruct (decide (0 ≤ k < 256)); [split; [lia | by eauto]|].
    split; [by intros [? [=]] | lia].
  - intros k Hk. by rewrite base_vocab_lookup, decide_True.
Qed.

Lemma adjacent_pairs_elem ids a b :
  (a, b) ∈ adjacent_pairs ids → a ∈ ids ∧ b ∈ ids.
Proof.
  unfold adjacent_pairs. intros Hin. split.
  - by eapply elem_of_zip_l.
  - apply elem_of_zip_r in Hin. destruct ids; [done|].
    by apply elem_of_cons; right.
Qed.

(** ** One turn of the training loop *)

Lemma vocab_index_Ok (vocabulary : gmap Z (list Z)) k b :
  vocabulary !! k = Some b → vocab_index vocabulary k = Ok b.
Proof. intros Hk. unfold vocab_index. by rewrite Hk. Qed.

(** Under the invariant a turn either breaks, on a sequence without pairs,
    or merges a pair standing in the sequence, and the invariant holds for
    the next turn. *)
Lemma train_body_step bs i ids self :
  train_inv bs i ids (vocab self) →
  (_get_stats ids = [] ∧ train_body i ids self = Ok None)
  ∨ (∃ l r bl br,
       (l, r) ∈ adjacent_pairs ids
       ∧ vocab self !! l = Some bl ∧ vocab self !! r = Some br
       ∧ vocab self !! (256 + i) = None
       ∧ train_body i ids self
         = Ok (Some ((l, r), merge_pass ids (l, r) (256 + i),
                 {| vocab_size := vocab_size self;
                    merges := dict_set (l, r) (256 + i) (merges self);
                    vocab := <[256 + i := bl ++ br]> (vocab self) |}))
       ∧ train_inv bs (i + 1) (merge_pass ids (l, r) (256 + i))
           (<[256 + i := bl ++ br]> (vocab self))).
Proof.
  intros (Hi & Hdom & Hbase & Hbytes).
  destruct (decide (_get_stats ids = [])) as [Hnil|Hne].
  { left. split; [done | by apply train_body_break]. }
  right. destruct (py_max_spec snd _ Hne) as ([[l r] freq] & l1 & l2 & Hmax & Hsplit & _).
  assert ((l, r) ∈ adjacent_pairs ids) as Hadj.
  { apply (Counter_key_elem_of _ _ freq).
    change (((l, r), freq) ∈ _get_stats ids). rewrite Hsplit. apply elem_of_app; right. by apply elem_of_cons; left. }
  destruct (adjacent_pairs_elem _ _ _ Hadj) as [Hl Hr].
  destruct (idsToBytes_Some_elem _ _ _ _ Hbytes Hl) as [bl Hbl].
  destruct (idsToBytes_Some_elem _ _ _ _ Hbytes Hr) as [br Hbr].
  assert (vocab self !! (256 + i) = None) as Hnew.
  { apply eq_None_not_Some. rewrite Hdom. lia. }
  exists l, r, bl, br. split_and!; [done..| |].
  - unfold train_body. rewrite bool_decide_eq_false_2 by done.
    rewrite Hmax. cbn [mbind result_bind]. rewrite _merge_spec.
    cbn [mbind result_bind set_merges vocab fst snd].
    rewrite (vocab_index_Ok _ _ _ Hbl), (vocab_index_Ok _ _ _ Hbr). done.
  - split_and!; [lia | | |].
    + intros k. rewrite lookup_insert. case_decide as Hk.
      * subst k. split; [lia | by eauto].
      * rewrite Hdom. lia.
    + intros k Hk. rewrite lookup_insert_ne by lia. by apply Hbase.
    + by apply merge_pass_idsToBytes.
Qed.

(** ** The training loop *)

Lemma seqZ_of_nat_S i (n : nat) :
  seqZ i (Z.of_nat (S n)) = i :: seqZ (i + 1) (Z.of_nat n).
Proof.
  rewrite seqZ_cons by lia. f_equal. f_equal; lia.
Qed.

Lemma seqZ_to_nat i n : seqZ i n = seqZ i (Z.of_nat (Z.to_nat n)).
Proof. unfold seqZ. by rewrite Nat2Z.id. Qed.

Lemma take_seqZ i n (k : nat) :
  take k (seqZ i n) = seqZ i (Z.of_nat (k `min` Z.to_nat n)).
Proof. unfold seqZ. by rewrite <-fmap_take, take_seq, Nat2Z.id. Qed.

(** Once the loop has broken off, further turns do nothing. *)
Lemma train_loop_break range ids self :
  _get_stats ids = [] →
  train_loop range ids self = Ok (ids, self)
  ∧ train_loop_rules range ids self = [].
Proof.
  intros Hnil. destruct range as [|i range]; [done|].
  cbn [train_loop train_loop_rules]. by rewrite train_body_break.
Qed.

(** Under the invariant the loop over [n] indices returns; it performs the
    turns of a run, [n] of them unless it breaks off before. *)
Lemma train_loop_run bs (n : nat) i ids self :
  train_inv bs i ids (vocab self) →
  ∃ rules ids' self',
    train_loop (seqZ i (Z.of_nat n)) ids self = Ok (ids', self')
    ∧ train_loop_rules (seqZ i (Z.of_nat n)) ids self = rules
    ∧ train_run i ids self rules ids' self'
    ∧ (length rules = n ∨ (length rules < n)%nat ∧ _get_stats ids' = []).
Proof.
  revert i ids self. induction n as [|n IH]; intros i ids self Hinv.
  { exists [], ids, self. split_and!; [done | done | constructor | by left]. }
  rewrite seqZ_of_nat_S. cbn [train_loop train_loop_rules].
  destruct (train_body_step _ _ _ _ Hinv)
    as [[Hnil Hbody]|(l & r & bl & br & _ & _ & _ & _ & Hbody & Hinv')].
  - rewrite Hbody. exists [], ids, self.
    split_and!; [done | done | constructor | right; simpl; split; [lia|done]].
  - rewrite Hbody. cbn [mbind result_bind].
    destruct (IH (i + 1) _
                {| vocab_size := vocab_size self;
                   merges := dict_set (l, r) (256 + i) (merges self);
                   vocab := <[256 + i := bl ++ br]> (vocab self) |} Hinv')
      as (rules & ids' & self' & Hloop & Hrules & Hrun & Hlen).
    exists (((l, r), 256 + i) :: rules), ids', self'. split_and!.
    + done.
    + by rewrite Hrules.
    + by econstructor.
    + simpl. destruct Hlen as [?|[? ?]]; [left; lia | right; split; [lia|done]].
Qed.

(** A run is what the loop does over as many indices as the run has
    turns. *)
Lemma train_run_loop i ids self rules ids' self' :
  train_run i ids self rules ids' self' →
  train_loop (seqZ i (Z.of_nat (length rules))) ids self = Ok (ids', self')
  ∧ train_loop_rules (seqZ i (Z.of_nat (length rules))) ids self = rules.
Proof.
  induction 1 as [|i ids self pair ids1 self1 rules ids' self' Hbody _ [IH1 IH2]];
    [done|].
  cbn [length]. rewrite seqZ_of_nat_S. cbn [train_loop train_loop_rules].
  rewrite Hbody. cbn [mbind result_bind]. by rewrite IH1, IH2.
Qed.

Lemma train_run_nil_inv i ids self ids' self' :
  train_run i ids self [] ids' self' → ids' = ids ∧ self' = self.
Proof. by inversion 1. Qed.

Lemma train_run_app i ids self rules1 rules2 ids' self' :
  train_run i ids self (rules1 ++ rules2) ids' self' →
  ∃ ids1 self1,
    train_run i ids self rules1 ids1 self1
    ∧ train_run (i + Z.of_nat (length rules1)) ids1 self1 rules2 ids' self'.
Proof.
  revert i ids self. induction rules1 as [|rule rules1 IH]; intros i ids self.
  - intros Hrun. exists ids, self. split; [constructor|].
    by rewrite Z.add_0_r.
  - inversion 1 as [|? ? ? pair ids1 self1 ? ? ? Hbody Hrun]; subst.
    destruct (IH _ _ _ Hrun) as (ids2 & self2 & Hrun1 & Hrun2).
    exists ids2, self2. split; [by econstructor|].
    replace (i + Z.of_nat (length ((pair, 256 + i) :: rules1)))
      with (i + 1 + Z.of_nat (length rules1)) by (cbn [length]; lia).
    done.
Qed.

Section train_run.
Variable bs : list Z.

(** What one merging turn does, read off [train_body_step]. *)
Lemma train_body_Some i ids self pair ids1 self1 :
  train_inv bs i ids (vocab self) →
  train_body i ids self = Ok (Some (pair, ids1, self1)) →
  ∃ bl br,
    pair ∈ adjacent_pairs ids
    ∧ vocab self !! pair.1 = Some bl ∧ vocab self !! pair.2 = Some br
    ∧ vocab self !! (256 + i) = None
    ∧ ids1 = merge_pass ids pair (256 + i)
    ∧ vocab_size self1 = vocab_size self
    ∧ merges self1 = dict_set pair (256 + i) (merges self)
    ∧ vocab self1 = <[256 + i := bl ++ br]> (vocab self)
    ∧ train_inv bs (i + 1) ids1 (vocab self1).
Proof.
  intros Hinv Hbody.
  destruct (train_body_step _ _ _ _ Hinv)
    as [[_ Hbody']|(l & r & bl & br & ? & ? & ? & ? & Hbody' & ?)];
    rewrite Hbody in Hbody'; [done|].
  injection Hbody' as -> -> ->. exists bl, br. by split_and!.
Qed.

Lemma train_run_inv i ids self rules ids' self' :
  train_run i ids self rules ids' self' →
  train_inv bs i ids (vocab self) →
  train_inv bs (i + Z.of_nat (length rules)) ids' (vocab self').
Proof.
  induction 1 as [|i ids self pair ids1 self1 rules ids' self' Hbody _ IH];
    intros Hinv.
  - by rewrite Z.add_0_r.
  - destruct (train_body_Some _ _ _ _ _ _ Hinv Hbody)
      as (bl & br & _ & _ & _ & _ & _ & _ & _ & _ & Hinv').
    replace (i + Z.of_nat (length ((pair, 256 + i) :: rules)))
      with (i + 1 + Z.of_nat (length rules)) by (cbn [length]; lia).
    by apply IH.
Qed.

(** The vocabulary only grows, and the configured size stays. *)
Lemma train_run_vocab_subseteq i ids self rules ids' self' :
  train_run i ids self rules ids' self' →
  train_inv bs i ids (vocab self) →
  vocab self ⊆ vocab self' ∧ vocab_size self' = vocab_size self.
Proof.
  induction 1 as [|i ids self pair ids1 self1 rules ids' self' Hbody _ IH];
    intros Hinv; [done|].
  destruct (train_body_Some _ _ _ _ _ _ Hinv Hbody)
    as (bl & br & _ & _ & _ & Hnew & _ & Hsize & _ & Hvocab & Hinv').
  destruct (IH Hinv') as [Hsub Hsize']. split; [|congruence].
  etrans; [|exact Hsub]. rewrite Hvocab. by apply insert_subseteq.
Qed.

(** The ids recorded are 256 + i, 256 + i + 1, ... in this order. *)
Lemma train_run_ids i ids self rules ids' self' :
  train_run i ids self rules ids' self' →
  rules.*2 = seqZ (256 + i) (Z.of_nat (length rules)).
Proof.
  induction 1 as [|i ids self pair ids1 self1 rules ids' self' Hbody _ IH];
    [done|].
  cbn [length]. rewrite seqZ_of_nat_S, fmap_cons, IH. cbn [snd].
  do 2 f_equal. lia.
Qed.

(** The merge table receives the recorded rules, one assignment each. *)
Lemma train_run_merges i ids self rules ids' self' :
  train_run i ids self rules ids' self' →
  train_inv bs i ids (vocab self) →
  merges self' = record_rules rules (merges self).
Proof.
  induction 1 as [|i ids self pair ids1 self1 rules ids' self' Hbody _ IH];
    intros Hinv; [done|].
  destruct (train_body_Some _ _ _ _ _ _ Hinv Hbody)
    as (bl & br & _ & _ & _ & _ & _ & _ & Hmerges & _ & Hinv').
  rewrite (IH Hinv'), Hmerges. done.
Qed.
End train_run.

Section train_run_rules.
Variable bs : list Z.

(** Every recorded rule has its three vocabulary entries at the end of the
    run, the new one being the concatenation of the other two. *)
Lemma train_run_rules_closed i ids self rules ids' self' :
  train_run i ids self rules ids' self' →
  train_inv bs i ids (vocab self) →
  Forall (λ rule, ∃ bl br,
            vocab self' !! rule.1.1 = Some bl
            ∧ vocab self' !! rule.1.2 = Some br
            ∧ vocab self' !! rule.2 = Some (bl ++ br)) rules.
Proof.
  induction 1 as [|i ids self pair ids1 self1 rules ids' self' Hbody Hrun IH];
    intros Hinv; [constructor|].
  destruct (train_body_Some bs _ _ _ _ _ _ Hinv Hbody)
    as (bl & br & _ & Hl & Hr & Hnew & _ & _ & _ & Hvocab & Hinv').
  constructor; [|by apply IH].
  destruct (train_run_vocab_subseteq bs _ _ _ _ _ _ Hrun Hinv') as [Hsub _].
  exists bl, br. cbn [fst snd].
  split_and!; (eapply lookup_weaken; [|exact Hsub]); rewrite Hvocab.
  - rewrite lookup_insert_ne by congruence. done.
  - rewrite lookup_insert_ne by congruence. done.
  - by rewrite lookup_insert_eq.
Qed.

(** No pair is merged twice: a pair that was merged no longer stands in the
    sequence, so every turn adds a new key at the end of the merge table. *)
Lemma train_run_merges_app i ids self rules ids' self' :
  train_run i ids self rules ids' self' →
  train_inv bs i ids (vocab self) →
  Forall (λ p, p.1 < 256 + i ∧ p.2 < 256 + i ∧ p ∉ adjacent_pairs ids)
    (merges self).*1 →
  merges self' = merges self ++ rules.
Proof.
  induction 1 as [|i ids self pair ids1 self1 rules ids' self' Hbody Hrun IH];
    intros Hinv Hseen; [by rewrite app_nil_r|].
  destruct (train_body_Some bs _ _ _ _ _ _ Hinv Hbody)
    as (bl & br & Hadj & Hl & Hr & Hnew & -> & _ & Hmerges & _ & Hinv').
  assert (pair ∉ (merges self).*1) as Hfresh.
  { intros Hin. rewrite Forall_forall in Hseen.
    by destruct (Hseen _ Hin) as (_ & _ & ?). }
  destruct Hinv as (_ & Hdom & _ & _).
  assert (pair.1 < 256 + i ∧ pair.2 < 256 + i) as [Hl' Hr'].
  { split; [apply (Hdom pair.1) | apply (Hdom pair.2)]; by eauto. }
  rewrite (dict_set_new _ _ _ Hfresh) in Hmerges.
  rewrite (IH Hinv'), Hmerges; [by rewrite <-app_assoc|].
  rewrite Hmerges, fmap_app. apply Forall_app. split.
  - eapply Forall_impl; [exact Hseen|]. intros [x y] (Hp1 & Hp2 & Hp).
    cbn [fst snd] in *. split_and!; [lia | lia |].
    intros [?|[?|[? _]]]%merge_pass_adjacent; [lia | lia | done].
  - repeat constructor; cbn [fst]; [lia | lia |].
    destruct pair as [l r].
    intros [?|[?|[_ ?]]]%merge_pass_adjacent; cbn [fst snd] in *;
      [lia | lia | done].
Qed.

(** A run that ends on a sequence without pairs is all the loop does,
    however many indices remain. *)
Lemma train_run_loop_break i ids self rules ids' self' (n : nat) :
  train_run i ids self rules ids' self' →
  _get_stats ids' = [] → (length rules ≤ n)%nat →
  train_loop (seqZ i (Z.of_nat n)) ids self = Ok (ids', self')
  ∧ train_loop_rules (seqZ i (Z.of_nat n)) ids self = rules.
Proof.
  intros Hrun Hnil. revert n.
  induction Hrun as [|i ids self pair ids1 self1 rules ids' self' Hbody _ IH];
    intros n Hn.
  - by apply train_loop_break.
  - destruct n as [|n]; [simpl in Hn; lia|].
    rewrite seqZ_of_nat_S. cbn [train_loop train_loop_rules].
    rewrite Hbody. cbn [mbind result_bind].
    destruct (IH Hnil n) as [-> ->]; [simpl in Hn; lia|]. done.
Qed.
End train_run_rules.

(** ** [train] *)

Section train.
Variables (self : BPETokenizer) (text : list char) (bs : list Z).
Hypothesis Hencode : encode_utf8 text = Ok bs.

(** [train] returns; [train_rules] are the rules of its run; the run stops
    short of [vocab_size - 256] turns only on a sequence without pairs. *)
Lemma train_spec :
  ∃ rules ids' self',
    train self text = Ok (ids', self')
    ∧ train_rules self text = rules
    ∧ train_run 0 bs (set_vocab (λ _, base_vocab) self) rules ids' self'
    ∧ (length rules = Z.to_nat (vocab_size self - 256)
       ∨ (length rules < Z.to_nat (vocab_size self - 256))%nat
         ∧ _get_stats ids' = []).
Proof.
  unfold train, train_rules, py_range. rewrite Hencode.
  cbn [mbind result_bind set_vocab vocab_size].
  rewrite (seqZ_to_nat 0 (vocab_size self - 256)).
  apply (train_loop_run bs). cbn [set_vocab vocab].
  apply train_inv_base. by eapply encode_utf8_bytes.
Qed.

Lemma train_inv_start :
  train_inv bs 0 bs (vocab (set_vocab (λ _, base_vocab) self)).
Proof. apply train_inv_base. by eapply encode_utf8_bytes. Qed.

(** The state after [k] turns: [train_upto k] returns it; it is reached by
    the first [k] rules of the run, and the rest of the run goes on from
    it. *)
Lemma train_upto_spec (k : nat) rules ids' self' :
  train self text = Ok (ids', self') →
  train_rules self text = rules →
  ∃ ids_k self_k,
    train_upto k self text = Ok (ids_k, self_k)
    ∧ train_run 0 bs (set_vocab (λ _, base_vocab) self) (take k rules)
        ids_k self_k
    ∧ train_run (Z.of_nat (length (take k rules))) ids_k self_k
        (drop k rules) ids' self'.
Proof.
  intros Htrain Hrules.
  destruct train_spec as (rules0 & ids0 & self0 & Htrain0 & Hrules0 & Hrun & Hlen).
  rewrite Htrain in Htrain0. injection Htrain0 as <- <-.
  rewrite Hrules in Hrules0. subst rules0.
  rewrite <-(take_drop k rules) in Hrun.
  destruct (train_run_app _ _ _ _ _ _ _ Hrun) as (ids_k & self_k & Hrun1 & Hrun2).
  rewrite Z.add_0_l in Hrun2. exists ids_k, self_k. split; [|done].
  unfold train_upto, py_range. rewrite Hencode.
  cbn [mbind result_bind vocab_size set_vocab]. rewrite take_seqZ.
  destruct (decide (k ≤ length rules)%nat) as [Hk|Hk].
  - replace (k `min` Z.to_nat (vocab_size self - 256))%nat
      with (length (take k rules)) by (rewrite length_take; lia).
    by apply train_run_loop.
  - rewrite drop_ge in Hrun2 by lia.
    apply train_run_nil_inv in Hrun2 as [-> ->].
    rewrite take_ge in Hrun1 by lia.
    destruct Hlen as [Hlen|[Hlen Hnil]].
    + replace (k `min` Z.to_nat (vocab_size self - 256))%nat
        with (length rules) by lia.
      by apply train_run_loop.
    + by apply (train_run_loop_break _ _ _ rules); [| |lia].
Qed.
End train.

Lemma train_run_det i ids self rules ids1 self1 ids2 self2 :
  train_run i ids self rules ids1 self1 →
  train_run i ids self rules ids2 self2 →
  ids1 = ids2 ∧ self1 = self2.
Proof.
  intros [H1 _]%train_run_loop [H2 _]%train_run_loop.
  rewrite H1 in H2. by injection H2.
Qed.

Lemma train_Ok_encode self text ids' self' :
  train self text = Ok (ids', self') → ∃ bs, encode_utf8 text = Ok bs.
Proof. unfold train. destruct (encode_utf8 text); [by eauto | done]. Qed.

Lemma train_upto_Ok_encode k self text ids' self' :
  train_upto k self text = Ok (ids', self') → ∃ bs, encode_utf8 text = Ok bs.
Proof. unfold train_upto. destruct (encode_utf8 text); [by eauto | done]. Qed.

(** The vocabularies of a run after [j] and after [k ≥ j] turns. *)
Lemma train_upto_vocab_mono self text (j k : nat) ids_j self_j ids_k self_k :
  (j ≤ k)%nat →
  train_upto j self text = Ok (ids_j, self_j) →
  train_upto k self text = Ok (ids_k, self_k) →
  vocab self_j ⊆ vocab self_k.
Proof.
  intros Hjk Hj Hk. destruct (train_upto_Ok_encode _ _ _ _ _ Hj) as [bs Hbs].
  destruct (train_spec self text bs Hbs) as (rules & ids' & self' & Ht & Hr & _).
  destruct (train_upto_spec self text bs Hbs j _ _ _ Ht Hr)
    as (ids_j' & self_j' & Hj' & Hrun_j & _).
  destruct (train_upto_spec self text bs Hbs k _ _ _ Ht Hr)
    as (ids_k' & self_k' & Hk' & Hrun_k & _).
  rewrite Hj in Hj'. injection Hj' as <- <-.
  rewrite Hk in Hk'. injection Hk' as <- <-.
  rewrite <-(take_drop j (take k rules)), take_take in Hrun_k.
  replace (j `min` k)%nat with j in Hrun_k by lia.
  destruct (train_run_app _ _ _ _ _ _ _ Hrun_k) as (ids1 & self1 & Hrun1 & Hrun2).
  destruct (train_run_det _ _ _ _ _ _ _ _ Hrun_j Hrun1) as [<- <-].
  refine (proj1 (train_run_vocab_subseteq bs _ _ _ _ _ _ Hrun2 _)).
  apply (train_run_inv bs _ _ _ _ _ _ Hrun_j).
  apply (train_inv_start self text bs Hbs).
Qed.

Lemma train_upto_ge self text (k : nat) :
  (Z.to_nat (vocab_size self - 256) ≤ k)%nat →
  train_upto k self text = train self text.
Proof.
  intros Hk. unfold train_upto, train. destruct (encode_utf8 text); [|done].
  cbn [mbind result_bind]. rewrite take_ge; [done|].
  unfold py_range. rewrite length_seqZ. done.
Qed.

(** C5: after a training run on any tokenizer the vocabulary has the 256
    single-byte entries, [id ↦ [id]]; it has an entry for exactly the ids
    below 256 plus the number of rules the run recorded; for every rule
    [(left, right) ↦ id] of the run the entry of [id] is the entry of [left]
    followed by the entry of [right]; and the vocabulary after [j] turns of
    the run is contained, entry for entry, in the one after any later turn
    and in the final one. *)
Theorem train_vocab_invariant self text bs :
  encode_utf8 text = Ok bs →
  ∃ ids' self',
    train self text = Ok (ids', self')
    ∧ (∀ id, 0 ≤ id < 256 → vocab self' !! id = Some [id])
    ∧ (∀ id, is_Some (vocab self' !! id)
             ↔ 0 ≤ id < 256 + Z.of_nat (length (train_rules self text)))
    ∧ (∀ l r id, ((l, r), id) ∈ train_rules self text →
         ∃ bl br, vocab self' !! l = Some bl ∧ vocab self' !! r = Some br
                  ∧ vocab self' !! id = Some (bl ++ br))
    ∧ (∀ (j k : nat) ids_j self_j ids_k self_k,
         (j ≤ k)%nat →
         train_upto j self text = Ok (ids_j, self_j) →
         train_upto k self text = Ok (ids_k, self_k) →
         vocab self_j ⊆ vocab self_k ∧ vocab self_k ⊆ vocab self').
Proof.
  intros Hbs.
  destruct (train_spec self text bs Hbs) as (rules & ids' & self' & Ht & Hr & Hrun & _).
  pose proof (train_inv_start self text bs Hbs) as Hinv0.
  pose proof (train_run_inv bs _ _ _ _ _ _ Hrun Hinv0) as (_ & Hdom & Hbase & _).
  exists ids', self'. rewrite Hr. split_and!; [done | done | | |].
  - intros id. rewrite Hdom. lia.
  - intros l r id Hin.
    pose proof (train_run_rules_closed bs _ _ _ _ _ _ Hrun Hinv0) as Hclosed.
    rewrite Forall_forall in Hclosed. apply (Hclosed _ Hin).
  - intros j k ids_j self_j ids_k self_k Hjk Hj Hk. split.
    + by eapply train_upto_vocab_mono.
    + rewrite <-(train_upto_ge self text (k `max` Z.to_nat (vocab_size self - 256)))
        in Ht by lia.
      eapply (train_upto_vocab_mono _ _ k); [|done..]. lia.
Qed.

Lemma train_vocab_invariant_witness :
  ∃ ids' self',
    train {| vocab_size := 259; merges := []; vocab := ∅ |}
      (str_of_string "aaabdaaabac") = Ok (ids', self')
    ∧ vocab self' !! 97 = Some [97].
Proof.
  destruct (train_vocab_invariant
              {| vocab_size := 259; merges := []; vocab := ∅ |}
              (str_of_string "aaabdaaabac")
              [97; 97; 97; 98; 100; 97; 97; 97; 98; 97; 99] eq_refl)
    as (ids' & self' & Htrain & Hbase & _).
  exists ids', self'. split; [exact Htrain | apply Hbase; lia].
Defined.

(** The turn that records the rule at position [i] of a run. *)
Lemma train_rules_lookup self text bs (i : nat) l r id :
  encode_utf8 text = Ok bs →
  train_rules self text !! i = Some ((l, r), id) →
  id = 256 + Z.of_nat i
  ∧ ∃ ids_i self_i,
      train_upto i self text = Ok (ids_i, self_i)
      ∧ is_Some (vocab self_i !! l) ∧ is_Some (vocab self_i !! r)
      ∧ vocab self_i !! id = None.
Proof.
  intros Hbs Hi.
  destruct (train_spec self text bs Hbs) as (rules & ids' & self' & Ht & Hr & _).
  destruct (train_upto_spec self text bs Hbs i _ _ _ Ht Hr)
    as (ids_i & self_i & Hupto & Hrun1 & Hrun2).
  rewrite Hr in Hi. pose proof (lookup_lt_Some _ _ _ Hi) as Hlt.
  rewrite (drop_S _ _ _ Hi) in Hrun2. rewrite length_take_le in Hrun2 by lia.
  inversion Hrun2 as [|? ? ? pair ids1 self1 ? ? ? Hbody Hrest]; subst.
  pose proof (train_run_inv bs _ _ _ _ _ _ Hrun1
                (train_inv_start self text bs Hbs)) as Hinv.
  rewrite Z.add_0_l, length_take_le in Hinv by lia.
  destruct (train_body_Some bs _ _ _ _ _ _ Hinv Hbody)
    as (bl & br & _ & Hl & Hrr & Hnew & _).
  split; [done|]. exists ids_i, self_i. cbn [fst snd] in *.
  split_and!; [done | by eauto | by eauto | done].
Qed.

(** X19: the rules one run of [train] records, in the order of their
    recording, have the ids 256, 257, ...: the rule of turn [i] has id
    [256 + i], so the ids of the run increase strictly; when a rule is
    recorded, its left and right id have entries in the vocabulary of that
    moment and its new id has none.  The run assigns these rules to the
    merge table with [self.merges[pair] = idx], one by one, on top of what
    the table held before the run; only a table that was empty before the
    run, as [__init__] leaves it, is afterwards the list of the rules of the
    run. *)
Theorem train_rule_ids self text bs :
  encode_utf8 text = Ok bs →
  ∃ ids' self',
    train self text = Ok (ids', self')
    ∧ merges self' = record_rules (train_rules self text) (merges self)
    ∧ (merges self = [] → merges self' = train_rules self text)
    ∧ (train_rules self text).*2
      = seqZ 256 (Z.of_nat (length (train_rules self text)))
    ∧ (∀ (i : nat) l r id,
         train_rules self text !! i = Some ((l, r), id) →
         id = 256 + Z.of_nat i
         ∧ ∃ ids_i self_i,
             train_upto i self text = Ok (ids_i, self_i)
             ∧ is_Some (vocab self_i !! l) ∧ is_Some (vocab self_i !! r)
             ∧ vocab self_i !! id = None)
    ∧ (∀ (i j : nat) ri rj,
         (i < j)%nat →
         train_rules self text !! i = Some ri →
         train_rules self text !! j = Some rj →
         ri.2 < rj.2).
Proof.
  intros Hbs.
  destruct (train_spec self text bs Hbs) as (rules & ids' & self' & Ht & Hr & Hrun & _).
  pose proof (train_inv_start self text bs Hbs) as Hinv0.
  exists ids', self'. split_and!.
  - done.
  - rewrite Hr. apply (train_run_merges bs _ _ _ _ _ _ Hrun Hinv0).
  - intros Hempty. rewrite Hr.
    rewrite (train_run_merges_app bs _ _ _ _ _ _ Hrun Hinv0);
      cbn [set_vocab merges]; rewrite Hempty; [done | constructor].
  - rewrite Hr. apply (train_run_ids _ _ _ _ _ _ Hrun).
  - intros i l r id. by apply (train_rules_lookup _ _ bs).
  - intros i j [[li ri] idi] [[lj rj] idj] Hij Hi Hj.
    destruct (train_rules_lookup _ _ _ _ _ _ _ Hbs Hi) as [-> _].
    destruct (train_rules_lookup _ _ _ _ _ _ _ Hbs Hj) as [-> _].
    cbn [snd]. lia.
Qed.

Lemma train_rule_ids_witness :
  ∃ ids' self',
    (self ← __init__ 259; train self (str_of_string "aaabdaaabac"))
    = Ok (ids', self')
    ∧ merges self' = [((97, 97), 256); ((256, 97), 257); ((257, 98), 258)].
Proof.
  destruct (train_rule_ids
              {| vocab_size := 259; merges := []; vocab := ∅ |}
              (str_of_string "aaabdaaabac")
              [97; 97; 97; 98; 100; 97; 97; 97; 98; 97; 99] eq_refl)
    as (ids' & self' & Htrain & _ & Hfresh & _).
  exists ids', self'. split; [exact Htrain|].
  rewrite (Hfresh eq_refl). by vm_compute.
Defined.





(** C8: training on the empty text is not an error.  It returns the empty
    sequence, records no rule and leaves the merge table as it was, empty
    for a fresh tokenizer, and the vocabulary is the base vocabulary, whose
    entries are exactly the 256 single bytes. *)
Theorem train_empty_corpus :
  (∀ self, train self [] = Ok ([], set_vocab (λ _, base_vocab) self)
           ∧ train_rules self [] = [])
  ∧ (∀ vs, (self ← __init__ vs; train self [])
           = Ok ([], {| vocab_size := vs; merges := []; vocab := base_vocab |}))
  ∧ (∀ k, base_vocab !! k = if decide (0 ≤ k < 256) then Some [k] else None)
  ∧ size base_vocab = 256%nat.
Proof.
  assert (∀ self, train self [] = Ok ([], set_vocab (λ _, base_vocab) self)
                  ∧ train_rules self [] = []) as Hempty.
  { intros self. unfold train, train_rules. cbn [encode_utf8 mbind result_bind].
    by apply train_loop_break. }
  split_and!; [done | | apply base_vocab_lookup | by vm_compute].
  intros vs. cbn [__init__ mbind result_bind]. by rewrite (proj1 (Hempty _)).
Qed.

(** C10: a merge pass does not change the bytes a sequence stands for,
    when the new id is a new key of the vocabulary and stands for the bytes
    of the left id followed by those of the right id.  So in a training run
    the sequence after any number of turns, and the sequence returned,
    expand through the vocabulary of that moment to the bytes of the
    corpus. *)
Theorem merge_preserves_bytes :
  (∀ (vocabulary : gmap Z (list Z)) ids l r idx bl br bs,
     vocabulary !! l = Some bl → vocabulary !! r = Some br →
     vocabulary !! idx = None →
     idsToBytes ids vocabulary = Some bs →
     ∃ ids', _merge ids (l, r) idx = Ok ids'
             ∧ idsToBytes ids' (<[idx := bl ++ br]> vocabulary) = Some bs)
  ∧ (∀ self text bs (k : nat),
       encode_utf8 text = Ok bs →
       ∃ ids_k self_k,
         train_upto k self text = Ok (ids_k, self_k)
         ∧ idsToBytes ids_k (vocab self_k) = Some bs)
  ∧ (∀ self text bs,
       encode_utf8 text = Ok bs →
       ∃ ids' self',
         train self text = Ok (ids', self')
         ∧ idsToBytes ids' (vocab self') = Some bs).
Proof.
  split_and!.
  - intros vocabulary ids l r idx bl br bs Hl Hr Hidx Hbytes.
    exists (merge_pass ids (l, r) idx). split; [apply _merge_spec|].
    by apply merge_pass_idsToBytes.
  - intros self text bs k Hbs.
    destruct (train_spec self text bs Hbs) as (rules & ids' & self' & Ht & Hr & _).
    destruct (train_upto_spec self text bs Hbs k _ _ _ Ht Hr)
      as (ids_k & self_k & Hupto & Hrun & _).
    exists ids_k, self_k. split; [done|].
    by destruct (train_run_inv bs _ _ _ _ _ _ Hrun
                   (train_inv_start self text bs Hbs)) as (_ & _ & _ & ?).
  - intros self text bs Hbs.
    destruct (train_spec self text bs Hbs) as (rules & ids' & self' & Ht & _ & Hrun & _).
    exists ids', self'. split; [done|].
    by destruct (train_run_inv bs _ _ _ _ _ _ Hrun
                   (train_inv_start self text bs Hbs)) as (_ & _ & _ & ?).
Qed.

Lemma merge_preserves_bytes_witness :
  (∃ ids', _merge [97; 97; 97; 98] (97, 97) 256 = Ok ids'
           ∧ idsToBytes ids' (<[256 := [97] ++ [97]]> base_vocab)
             = Some [97; 97; 97; 98])
  ∧ (∃ ids' self',
       train {| vocab_size := 259; merges := []; vocab := ∅ |}
         (str_of_string "aaabdaaabac") = Ok (ids', self')
       ∧ idsToBytes ids' (vocab self')
         = Some [97; 97; 97; 98; 100; 97; 97; 97; 98; 97; 99]).
Proof.
  destruct merge_preserves_bytes as (Hpass & _ & Htrain).
  split.
  - apply Hpass; by vm_compute.
  - by apply Htrain.
Defined.

(** ** Training twice, and construction *)

(** C2 fails on the code: [train] builds the vocabulary anew but keeps the
    merge table of the earlier run.  A tokenizer of size 257 trained on
    "aa" and then on "bb" holds the rule of the first corpus next to the
    rule of the second, both with id 256, where a fresh tokenizer trained on
    "bb" holds the second rule alone; the vocabularies and the returned
    sequences agree. *)
Theorem train_twice_keeps_old_merges :
  (self ← __init__ 257;
   '(_, self) ← train self (str_of_string "aa");
   '(ids, self) ← train self (str_of_string "bb");
   Ok (ids, merges self))
  = Ok ([256], [((97, 97), 256); ((98, 98), 256)])
  ∧ (self ← __init__ 257;
     '(ids, self) ← train self (str_of_string "bb");
     Ok (ids, merges self))
    = Ok ([256], [((98, 98), 256)])
  ∧ (self ← __init__ 257;
     '(_, self) ← train self (str_of_string "aa");
     '(_, self) ← train self (str_of_string "bb");
     Ok (vocab self))
    = (self ← __init__ 257;
       '(_, self) ← train self (str_of_string "bb");
       Ok (vocab self)).
Proof. split_and!; by vm_compute. Qed.

(** C6 fails on the code, through the table that [train] does not reset:
    the ids in the merge table of a tokenizer trained before do not increase
    strictly from 256.  After "aa" and then "bb" at size 257 the table holds
    the ids 256, 256: the stale rule of the first corpus and the rule of the
    second.  After "abab" and then "cccabab" at size 258 it holds 257, 257,
    256: the second run gave the pair (97, 98), a key of the first run, the
    new id 257 in its old place, left the stale rule of id 257 behind it and
    put its own first rule, id 256, last.  A fresh tokenizer of these sizes
    trained on the second corpus alone holds 256, and 256, 257. *)
Theorem train_twice_repeats_merge_ids :
  (self ← __init__ 257;
   '(_, self) ← train self (str_of_string "aa");
   '(_, self) ← train self (str_of_string "bb");
   Ok ((merges self).*2))
  = Ok [256; 256]
  ∧ (self ← __init__ 258;
     '(_, self) ← train self (str_of_string "abab");
     '(_, self) ← train self (str_of_string "cccabab");
     Ok (merges self))
    = Ok [((97, 98), 257); ((256, 256), 257); ((99, 99), 256)]
  ∧ (self ← __init__ 257;
     '(_, self) ← train self (str_of_string "bb");
     Ok ((merges self).*2))
    = Ok [256]
  ∧ (self ← __init__ 258;
     '(_, self) ← train self (str_of_string "cccabab");
     Ok (merges self))
    = Ok [((99, 99), 256); ((97, 98), 257)].
Proof. split_and!; by vm_compute. Qed.

(** C7 fails on the code, through the table that [train] does not reset:
    a tokenizer trained before holds more than [vocab_size - 256] rules.
    After "aa" and then "bb" at size 257 the table has 2 rules where the
    size allows 1; after "abab" and then "cccabab" at size 258 it has 3
    where the size allows 2, and the sequence returned, of length 4, has not
    collapsed.  A fresh tokenizer of these sizes trained on the second
    corpus alone holds 1 rule, and 2. *)
Theorem train_twice_exceeds_merge_count :
  (self ← __init__ 257;
   '(_, self) ← train self (str_of_string "aa");
   '(ids, self) ← train self (str_of_string "bb");
   Ok (ids, Z.of_nat (length (merges self)), vocab_size self - 256))
  = Ok ([256], 2, 1)
  ∧ (self ← __init__ 258;
     '(_, self) ← train self (str_of_string "abab");
     '(ids, self) ← train self (str_of_string "cccabab");
     Ok (ids, Z.of_nat (length (merges self)), vocab_size self - 256))
    = Ok ([256; 99; 257; 257], 3, 2)
  ∧ (self ← __init__ 257;
     '(ids, self) ← train self (str_of_string "bb");
     Ok (ids, Z.of_nat (length (merges self)), vocab_size self - 256))
    = Ok ([256], 1, 1)
  ∧ (self ← __init__ 258;
     '(ids, self) ← train self (str_of_string "cccabab");
     Ok (ids, Z.of_nat (length (merges self)), vocab_size self - 256))
    = Ok ([256; 99; 257; 257], 2, 2).
Proof. split_and!; by vm_compute. Qed.

(** C3 as stated fails: [__init__] checks nothing, a size below 256 is
    accepted like any other. *)
Lemma init_accepts_small_size :
  ¬ (∀ vs, vs < 256 → ∃ e, __init__ vs = Err e).
Proof. intros Hfail. by destruct (Hfail 255 ltac:(lia)) as [e ?]. Qed.

(** C3, as the code has it: construction succeeds for every size, also one
    below 256, and yields a tokenizer of that size with an empty merge table
    and an empty vocabulary. *)
Theorem init_total vs :
  __init__ vs = Ok {| vocab_size := vs; merges := []; vocab := ∅ |}.
Proof. done. Qed.

(** ** More on [_merge] *)

Section merge_more.
Variables (pair : Z * Z) (idx : Z).

Lemma adjacent_pairs_cons2 a b rest :
  adjacent_pairs (a :: b :: rest) = (a, b) :: adjacent_pairs (b :: rest).
Proof. done. Qed.

Lemma merge_pass_noop ids :
  pair ∉ adjacent_pairs ids → merge_pass ids pair idx = ids.
Proof.
  induction ids as [| a | a b rest IH1 _] using scan_ind; [done..|].
  rewrite adjacent_pairs_cons2. intros [Hne Hrest]%not_elem_of_cons.
  rewrite merge_pass_miss by done. by rewrite IH1.
Qed.

Lemma merge_pass_shorter ids :
  pair ∈ adjacent_pairs ids →
  (length (merge_pass ids pair idx) < length ids)%nat.
Proof.
  induction ids as [| a | a b rest IH1 _] using scan_ind;
    [by intros ?%elem_of_nil..|].
  rewrite adjacent_pairs_cons2. intros Hin.
  destruct (decide ((a, b) = pair)) as [Hp|Hp].
  - rewrite merge_pass_hit by done.
    pose proof (merge_pass_length pair idx rest). simpl. lia.
  - rewrite merge_pass_miss by done.
    apply elem_of_cons in Hin as [?|Hin]; [done|].
    specialize (IH1 Hin). simpl in *. lia.
Qed.

Lemma merge_pass_emits ids :
  pair ∈ adjacent_pairs ids → idx ∈ merge_pass ids pair idx.
Proof.
  induction ids as [| a | a b rest IH1 _] using scan_ind;
    [by intros ?%elem_of_nil..|].
  rewrite adjacent_pairs_cons2. intros Hin.
  destruct (decide ((a, b) = pair)) as [Hp|Hp].
  - rewrite merge_pass_hit by done. by apply elem_of_cons; left.
  - rewrite merge_pass_miss by done.
    apply elem_of_cons in Hin as [?|Hin]; [done|].
    apply elem_of_cons; right. by apply IH1.
Qed.

Lemma merge_pass_nonempty ids : ids ≠ [] → merge_pass ids pair idx ≠ [].
Proof.
  destruct ids as [|a [|b rest]]; [done | done |]. intros _.
  destruct (decide ((a, b) = pair)) as [Hp|Hp].
  - by rewrite merge_pass_hit.
  - by rewrite merge_pass_miss.
Qed.

Lemma unmerge_merge_pass ids :
  idx ∉ ids → unmerge (merge_pass ids pair idx) pair idx = ids.
Proof.
  unfold unmerge.
  induction ids as [| a | a b rest IH1 IH2] using scan_ind; [done| |].
  - intros [Ha _]%not_elem_of_cons. cbn. by rewrite decide_False.
  - intros [Ha [Hb Hrest]%not_elem_of_cons]%not_elem_of_cons.
    destruct (decide ((a, b) = pair)) as [Hp|Hp].
    + rewrite merge_pass_hit by done. cbn [mbind list_bind].
      rewrite decide_True by done. rewrite (IH2 Hrest), <-Hp. done.
    + rewrite merge_pass_miss by done. cbn [mbind list_bind].
      rewrite decide_False by done.
      rewrite IH1 by (by apply not_elem_of_cons). done.
Qed.
End merge_more.

(** X1: a pass of [_merge] never lengthens the sequence; it shortens it
    when the pair stands somewhere in it, and returns it as it is when the
    pair stands nowhere. *)
Theorem merge_shrinks (ids : list Z) (pair : Z * Z) (idx : Z) :
  ∃ out, _merge ids pair idx = Ok out
    ∧ (length out ≤ length ids)%nat
    ∧ (pair ∈ adjacent_pairs ids → (length out < length ids)%nat)
    ∧ (pair ∉ adjacent_pairs ids → out = ids).
Proof.
  exists (merge_pass ids pair idx). split_and!.
  - apply _merge_spec.
  - apply merge_pass_length.
  - apply merge_pass_shorter.
  - apply merge_pass_noop.
Qed.

Lemma merge_shrinks_witness :
  ∃ out, _merge [1; 2; 1; 2; 3] (1, 2) 9 = Ok out
    ∧ (length out < 5)%nat
    ∧ _merge [1; 2; 1; 2; 3] (2, 2) 9 = Ok [1; 2; 1; 2; 3].
Proof.
  destruct (merge_shrinks [1; 2; 1; 2; 3] (1, 2) 9) as (out & Hout & _ & Hlt & _).
  destruct (merge_shrinks [1; 2; 1; 2; 3] (2, 2) 9) as (out' & Hout' & _ & _ & Hid).
  exists out. split_and!; [exact Hout | |].
  - apply Hlt. by vm_compute; apply elem_of_cons; left.
  - rewrite Hout'. f_equal. apply Hid. vm_compute.
    by repeat (apply not_elem_of_cons; split; [done|]); apply not_elem_of_nil.
Defined.

(** X2: when the new id is neither side of the pair, the pair stands
    nowhere in the output of [_merge], and a second pass with the same
    arguments changes nothing. *)
Theorem merge_removes_pair (ids : list Z) (pair : Z * Z) (idx : Z) out :
  idx ≠ pair.1 → idx ≠ pair.2 →
  _merge ids pair idx = Ok out →
  (pair ∉ adjacent_pairs out) ∧ _merge out pair idx = Ok out.
Proof.
  intros H1 H2. rewrite _merge_spec. intros [= <-].
  assert (pair ∉ adjacent_pairs (merge_pass ids pair idx)) as Hgone.
  { destruct pair as [l r]. cbn [fst snd] in *.
    intros [?|[?|[_ ?]]]%merge_pass_adjacent; done. }
  split; [done|]. by rewrite _merge_spec, merge_pass_noop.
Qed.

Lemma merge_removes_pair_witness :
  ((97, 97) ∉ adjacent_pairs [256; 256; 97])
  ∧ _merge [256; 256; 97] (97, 97) 256 = Ok [256; 256; 97].
Proof.
  apply (merge_removes_pair [97; 97; 97; 97; 97] (97, 97) 256);
    [done | done | by vm_compute].
Defined.

(** X3: the output of [_merge] consists of elements of the input and the
    new id; the new id is emitted when the pair stands in the input, and,
    if the input does not already contain it, only then. *)
Theorem merge_elements (ids : list Z) (pair : Z * Z) (idx : Z) out :
  _merge ids pair idx = Ok out →
  (∀ x, x ∈ out → x = idx ∨ x ∈ ids)
  ∧ (pair ∈ adjacent_pairs ids → idx ∈ out)
  ∧ (idx ∉ ids → idx ∈ out → pair ∈ adjacent_pairs ids).
Proof.
  rewrite _merge_spec. intros [= <-]. split_and!.
  - apply merge_pass_elem.
  - apply merge_pass_emits.
  - intros Hfresh Hin. destruct (decide (pair ∈ adjacent_pairs ids)); [done|].
    by rewrite merge_pass_noop in Hin.
Qed.

Lemma merge_elements_witness :
  256 ∈ [256; 97] ∧ (97, 97) ∈ adjacent_pairs [97; 97; 97].
Proof.
  destruct (merge_elements [97; 97; 97] (97, 97) 256 [256; 97] eq_refl)
    as (_ & Hemit & Honly).
  assert ((97, 97) ∈ adjacent_pairs [97; 97; 97]) as Hin
    by (by vm_compute; apply elem_of_cons; left).
  split; [by apply Hemit|]. apply Honly; [|by apply Hemit].
  vm_compute. by repeat (apply not_elem_of_cons; split; [done|]);
    apply not_elem_of_nil.
Defined.

(** X4: [_merge] loses nothing: on sequences that do not contain the new
    id, replacing the new id by the pair in the output gives back the
    input, so two different sequences never merge to the same one. *)
Theorem merge_injective (ids1 ids2 : list Z) (pair : Z * Z) (idx : Z) out :
  idx ∉ ids1 → idx ∉ ids2 →
  _merge ids1 pair idx = Ok out → _merge ids2 pair idx = Ok out →
  ids1 = ids2 ∧ unmerge out pair idx = ids1.
Proof.
  intros H1 H2. rewrite !_merge_spec. intros [= <-] [= Heq].
  pose proof (unmerge_merge_pass pair idx _ H1) as Hu1.
  pose proof (unmerge_merge_pass pair idx _ H2) as Hu2.
  rewrite Heq in Hu2. split; [congruence | done].
Qed.

Lemma merge_injective_witness :
  unmerge [256; 97] (97, 97) 256 = [97; 97; 97].
Proof.
  refine (proj2 (merge_injective [97; 97; 97] [97; 97; 97] (97, 97) 256
                   [256; 97] _ _ eq_refl eq_refl));
    vm_compute; by repeat (apply not_elem_of_cons; split; [done|]);
    apply not_elem_of_nil.
Defined.

(** ** More on [_get_stats] *)

Lemma dict_set_sum {K} `{EqDecision K} (d : list (K * Z)) k v :
  foldr Z.add 0 (dict_set k v d).*2
  = foldr Z.add 0 d.*2 - default 0 (dict_get k d) + v.
Proof.
  induction d as [|[k0 v0] d IH]; [simpl; lia|].
  cbn [dict_set dict_get]. destruct (decide (k = k0)) as [->|Hk].
  - rewrite !fmap_cons. simpl. lia.
  - rewrite !fmap_cons. cbn [snd foldr]. rewrite IH. lia.
Qed.

Lemma Counter_foldl_sum {K} `{EqDecision K} (xs : list K) (c : list (K * Z)) :
  foldr Z.add 0 (foldl Counter_count c xs).*2
  = foldr Z.add 0 c.*2 + Z.of_nat (length xs).
Proof.
  revert c. induction xs as [|x xs IH]; intros c; [simpl; lia|].
  cbn [foldl length]. rewrite IH. unfold Counter_count.
  rewrite dict_set_sum. lia.
Qed.

(** X5: the counts of [_get_stats] add up to the number of adjacent
    positions of the sequence, its length less one (zero for the empty
    sequence). *)
Theorem get_stats_total (ids : list Z) :
  foldr Z.add 0 (_get_stats ids).*2 = Z.of_nat (length ids - 1).
Proof.
  unfold _get_stats, Counter. rewrite Counter_foldl_sum.
  rewrite length_zip, length_drop. cbn [fmap list_fmap foldr]. lia.
Qed.

Lemma Counter_keys_elem_of {K} `{EqDecision K} (xs : list K) k :
  k ∈ (Counter xs).*1 ↔ k ∈ xs.
Proof.
  split.
  - intros ([k' v] & -> & Hin)%list_elem_of_fmap_1.
    by eapply Counter_key_elem_of.
  - intros Hin%occurrences_pos.
    apply (list_elem_of_fmap_2' fst _ (k, occurrences k xs)); [|done].
    by apply elem_of_Counter.
Qed.

Lemma Counter_keys_snoc {K} `{EqDecision K} (xs : list K) x :
  (Counter (xs ++ [x])).*1
  = if decide (x ∈ xs) then (Counter xs).*1 else (Counter xs).*1 ++ [x].
Proof.
  unfold Counter at 1. rewrite foldl_snoc. fold (Counter xs).
  unfold Counter_count. rewrite dict_set_keys.
  destruct (decide (x ∈ xs)) as [Hin|Hin].
  - by rewrite decide_True by (by apply Counter_keys_elem_of).
  - by rewrite decide_False by (by rewrite Counter_keys_elem_of).
Qed.

(** The keys of a [Counter] stand in the order of their first occurrence:
    a key that comes before another one occurs before every occurrence of
    the other. *)
Lemma Counter_keys_order {K} `{EqDecision K} (xs : list K) l1 k1 l2 k2 :
  (Counter xs).*1 = l1 ++ k1 :: l2 → k2 ∈ l2 →
  ∀ i, xs !! i = Some k2 → ∃ j, (j < i)%nat ∧ xs !! j = Some k1.
Proof.
  revert l1 l2. induction xs as [|x xs IH] using rev_ind; intros l1 l2 Hkeys Hk2 i Hi.
  { done. }
  assert (∀ l1 l2, (Counter xs).*1 = l1 ++ k1 :: l2 →
            ∃ j, (j < length xs)%nat ∧ xs !! j = Some k1) as Hk1.
  { intros l1' l2' Heq.
    assert (k1 ∈ xs) as [j Hj]%list_elem_of_lookup_1.
    { apply Counter_keys_elem_of. rewrite Heq.
      apply elem_of_app; right. by apply elem_of_cons; left. }
    exists j. split; [by eapply lookup_lt_Some | done]. }
  rewrite Counter_keys_snoc in Hkeys.
  destruct (decide (i < length xs)%nat) as [Hlt|Hge].
  - rewrite lookup_app_l in Hi by done.
    assert (∃ l2', (Counter xs).*1 = l1 ++ k1 :: l2' ∧ k2 ∈ l2')
      as (l2' & Heq & Hin).
    { destruct (decide (x ∈ xs)) as [Hx|Hx]; [by exists l2|].
      destruct l2 as [|y l2 IHl2] using rev_ind; [by apply elem_of_nil in Hk2|].
      rewrite app_comm_cons, app_assoc in Hkeys.
      apply app_inj_tail in Hkeys as [Heq ->]. exists l2. split; [done|].
      apply elem_of_app in Hk2 as [?|Hk2]; [done|].
      apply list_elem_of_singleton in Hk2 as ->.
      exfalso. apply Hx. by eapply list_elem_of_lookup_2. }
    destruct (IH _ _ Heq Hin i Hi) as (j & Hj & Hjk).
    exists j. split; [done|]. by rewrite lookup_app_l by lia.
  - assert (∃ l1' l2', (Counter xs).*1 = l1' ++ k1 :: l2')
      as (l1' & l2' & Heq).
    { destruct (decide (x ∈ xs)) as [Hx|Hx]; [by exists l1, l2|].
      destruct l2 as [|y l2 IHl2] using rev_ind; [by apply elem_of_nil in Hk2|].
      rewrite app_comm_cons, app_assoc in Hkeys.
      apply app_inj_tail in Hkeys as [Heq _]. by exists l1, l2. }
    destruct (Hk1 _ _ Heq) as (j & Hj & Hjk).
    exists j. split; [lia|]. by rewrite lookup_app_l by lia.
Qed.

(** X6: the pair a turn of [train] merges has the maximum count, and it is
    the leftmost such pair: every occurrence of a pair with the same count,
    the merged pair included, stands at or after the first occurrence of the
    merged pair. *)
Theorem train_merges_leftmost_maximum i ids self pair ids' self' :
  train_body i ids self = Ok (Some (pair, ids', self')) →
  ∃ j : nat,
    adjacent_pairs ids !! j = Some pair
    ∧ (∀ a b, adjacent_count ids a b ≤ adjacent_count ids pair.1 pair.2)
    ∧ (∀ a b (k : nat),
         adjacent_pairs ids !! k = Some (a, b) →
         adjacent_count ids a b = adjacent_count ids pair.1 pair.2 →
         (j ≤ k)%nat).
Proof.
  intros (freq & Hne & Hmax)%train_body_selected.
  destruct (py_max_spec snd _ Hne) as (x & l1 & l2 & Hx & Hsplit & Hl1 & Hl2).
  rewrite Hmax in Hx. injection Hx as <-. cbn [snd] in *.
  assert (∀ a b c, ((a, b), c) ∈ _get_stats ids
                   ↔ c = adjacent_count ids a b ∧ 0 < c) as Hstats.
  { intros a b c. unfold _get_stats. fold (adjacent_pairs ids).
    by rewrite elem_of_Counter, occurrences_adjacent_pairs. }
  destruct pair as [l r]. cbn [fst snd].
  assert (freq = adjacent_count ids l r ∧ 0 < freq) as [Hfreq Hpos].
  { apply Hstats. rewrite Hsplit. apply elem_of_app; right.
    by apply elem_of_cons; left. }
  assert ((l, r) ∈ adjacent_pairs ids) as Hin.
  { apply occurrences_pos. rewrite occurrences_adjacent_pairs. lia. }
  destruct (list_elem_of_split_l _ _ Hin) as (p1 & p2 & Hp & Hfirst).
  assert (∀ k q, (k < length p1)%nat → adjacent_pairs ids !! k = Some q →
                 q ≠ (l, r)) as Hbefore.
  { intros k q Hk Hq ->. apply Hfirst. rewrite Hp, lookup_app_l in Hq by done.
    by eapply list_elem_of_lookup_2. }
  exists (length p1). split_and!.
  - rewrite Hp. by apply list_lookup_middle.
  - intros a b. rewrite <-Hfreq.
    destruct (decide (0 < adjacent_count ids a b)) as [Hab|?]; [|lia].
    pose proof (proj2 (Hstats a b _) (conj eq_refl Hab)) as Hmem.
    rewrite Hsplit in Hmem. rewrite Forall_forall in Hl1, Hl2.
    apply elem_of_app in Hmem as [Hmem|[Hmem|Hmem]%elem_of_cons].
    + specialize (Hl1 _ Hmem). simpl in Hl1. lia.
    + injection Hmem as _ _ ->. lia.
    + specialize (Hl2 _ Hmem). simpl in Hl2. lia.
  - intros a b k Hk Hcount.
    destruct (decide ((a, b) = (l, r))) as [Heq|Hneq].
    { destruct (decide (length p1 ≤ k)%nat); [done|].
      exfalso. eapply (Hbefore k); [lia | done | done]. }
    assert (((a, b), freq) ∈ _get_stats ids) as Hmem.
    { apply Hstats. split; lia. }
    rewrite Hsplit in Hmem. rewrite Forall_forall in Hl1.
    apply elem_of_app in Hmem as [Hmem|[Hmem|Hmem]%elem_of_cons].
    + specialize (Hl1 _ Hmem). simpl in Hl1. lia.
    + by injection Hmem as -> ->.
    + assert ((_get_stats ids).*1 = l1.*1 ++ (l, r) :: l2.*1) as Hkeys.
      { by rewrite Hsplit, fmap_app, fmap_cons. }
      destruct (Counter_keys_order (adjacent_pairs ids) _ _ _ (a, b) Hkeys) with k
        as (j & Hj & Hjl); [by apply (list_elem_of_fmap_2 fst _ ((a, b), freq)) | done |].
      destruct (decide (length p1 ≤ j)%nat); [lia|].
      exfalso. eapply (Hbefore j); [lia | done | done].
Qed.

Lemma train_merges_leftmost_maximum_witness :
  ∃ j : nat,
    adjacent_pairs [256; 97; 98; 100; 256; 97; 98; 97; 99] !! j
    = Some (256, 97)
    ∧ adjacent_count [256; 97; 98; 100; 256; 97; 98; 97; 99] 97 98
      ≤ adjacent_count [256; 97; 98; 100; 256; 97; 98; 97; 99] 256 97.
Proof.
  destruct (train_merges_leftmost_maximum 1
              [256; 97; 98; 100; 256; 97; 98; 97; 99]
              {| vocab_size := 259; merges := [((97, 97), 256)];
                 vocab := <[256 := [97; 97]]> base_vocab |}
              (256, 97) [257; 98; 100; 257; 98; 97; 99]
              {| vocab_size := 259;
                 merges := [((97, 97), 256); ((256, 97), 257)];
                 vocab := <[257 := [97; 97; 97]]>
                            (<[256 := [97; 97]]> base_vocab) |})
    as (j & Hj & Hmax & _); [by vm_compute|].
  exists j. split; [exact Hj | apply Hmax].
Defined.

(** ** More on [train] *)

Lemma encode_char_Err c e :
  encode_char c = Err e ↔ e = UnicodeEncodeError ∧ is_surrogate c = true.
Proof.
  unfold encode_char, is_surrogate. cbv zeta. split.
  - repeat case_match; by intros [= <-].
  - intros [-> Hs]. rewrite Hs.
    apply andb_prop in Hs as [Hlo%Z.leb_le Hhi%Z.leb_le].
    rewrite (proj2 (Z.ltb_ge _ _)), (proj2 (Z.ltb_ge _ _)),
      (proj2 (Z.ltb_lt _ _)) by lia. done.
Qed.

Lemma encode_utf8_Err text e :
  encode_utf8 text = Err e
  ↔ e = UnicodeEncodeError ∧ Exists (λ c, is_surrogate c = true) text.
Proof.
  induction text as [|c text IH]; cbn [encode_utf8].
  { split; [done | by intros [_ ?%Exists_nil]]. }
  rewrite Exists_cons. destruct (encode_char c) as [b|e'] eqn:Hc.
  - assert (is_surrogate c ≠ true) as Hns.
    { intros Hs. by rewrite (proj2 (encode_char_Err c _) (conj eq_refl Hs)) in Hc. }
    cbn [mbind result_bind]. destruct (encode_utf8 text) as [bs|e'] eqn:Ht.
    + cbn [mbind result_bind]. split; [done|].
      intros [-> [?|Hex]]; [done|].
      by pose proof (proj2 IH (conj eq_refl Hex)).
    + cbn [mbind result_bind]. rewrite IH.
      split; [by intros [-> ?]; auto | by intros [-> [?|?]]].
  - apply encode_char_Err in Hc as [-> Hs]. cbn [mbind result_bind].
    split; [by intros [= <-]; auto | by intros [-> _]].
Qed.

(** X7: [train] raises nothing but the encoding error of its first line.
    It fails exactly when the text holds a surrogate code point, with
    [UnicodeEncodeError]; the guarded reads [ids[i]], [self.vocab[...]] and
    [max(...)] never raise. *)
Theorem train_only_encoding_error self text e :
  train self text = Err e
  ↔ e = UnicodeEncodeError ∧ Exists (λ c, is_surrogate c = true) text.
Proof.
  rewrite <-encode_utf8_Err. destruct (encode_utf8 text) as [bs|e'] eqn:Hbs.
  - destruct (train_spec self text bs Hbs) as (? & ? & ? & -> & _). done.
  - unfold train. rewrite Hbs. cbn [mbind result_bind].
    split; by intros [= ->].
Qed.

Section train_run_more.
Variable bs : list Z.

(** Every turn shortens the sequence, and never empties it. *)
Lemma train_run_length i ids self rules ids' self' :
  train_run i ids self rules ids' self' →
  train_inv bs i ids (vocab self) →
  (length ids' + length rules ≤ length ids)%nat ∧ (ids ≠ [] → ids' ≠ []).
Proof.
  induction 1 as [|i ids self pair ids1 self1 rules ids' self' Hbody _ IH];
    intros Hinv; [split; [simpl; lia | done]|].
  destruct (train_body_Some bs _ _ _ _ _ _ Hinv Hbody)
    as (bl & br & Hadj & _ & _ & _ & -> & _ & _ & _ & Hinv').
  destruct (IH Hinv') as [Hlen Hne].
  pose proof (merge_pass_shorter pair (256 + i) ids Hadj).
  split; [simpl; lia|]. intros Hids. by apply Hne, merge_pass_nonempty.
Qed.

(** The pairs merged so far stand nowhere in the sequence, and the pairs a
    run merges are new ones. *)
Lemma train_run_seen i ids self rules ids' self' seen :
  train_run i ids self rules ids' self' →
  train_inv bs i ids (vocab self) →
  Forall (λ p, p.1 < 256 + i ∧ p.2 < 256 + i ∧ p ∉ adjacent_pairs ids) seen →
  NoDup seen →
  NoDup (seen ++ rules.*1)
  ∧ Forall (λ p, p ∉ adjacent_pairs ids') (seen ++ rules.*1).
Proof.
  intros Hrun. revert seen.
  induction Hrun as [|i ids self pair ids1 self1 rules ids' self' Hbody _ IH];
    intros seen Hinv Hseen Hnodup.
  { rewrite app_nil_r. split; [done|].
    eapply Forall_impl; [exact Hseen|]. by intros p (_ & _ & ?). }
  destruct (train_body_Some bs _ _ _ _ _ _ Hinv Hbody)
    as (bl & br & Hadj & Hl & Hr & _ & -> & _ & _ & _ & Hinv').
  assert (pair ∉ seen) as Hfresh.
  { intros Hin. rewrite Forall_forall in Hseen.
    by destruct (Hseen _ Hin) as (_ & _ & ?). }
  destruct Hinv as (_ & Hdom & _ & _).
  assert (pair.1 < 256 + i ∧ pair.2 < 256 + i) as [Hl' Hr'].
  { split; [apply (Hdom pair.1) | apply (Hdom pair.2)]; by eauto. }
  rewrite fmap_cons. cbn [fst].
  replace (seen ++ pair :: rules.*1) with ((seen ++ [pair]) ++ rules.*1)
    by (by rewrite <-app_assoc).
  apply (IH _ Hinv').
  - apply Forall_app. split.
    + eapply Forall_impl; [exact Hseen|]. intros [x y] (Hp1 & Hp2 & Hp).
      cbn [fst snd] in *. split_and!; [lia | lia |].
      intros [?|[?|[? _]]]%merge_pass_adjacent; [lia | lia | done].
    + repeat constructor; [lia | lia |]. destruct pair as [l r].
      intros [?|[?|[_ ?]]]%merge_pass_adjacent; cbn [fst snd] in *;
        [lia | lia | done].
  - apply NoDup_app. split_and!; [done | | apply NoDup_singleton].
    by intros x Hx ->%list_elem_of_singleton.
Qed.

(** Every entry of the vocabulary is a string of bytes, a single byte for
    an id below 256 and at least two bytes for a merged id. *)
Lemma train_run_entries i ids self rules ids' self' :
  train_run i ids self rules ids' self' →
  train_inv bs i ids (vocab self) →
  (∀ id b, vocab self !! id = Some b →
           Forall (λ x, 0 ≤ x < 256) b ∧ (1 ≤ length b)%nat
           ∧ (256 ≤ id → (2 ≤ length b)%nat)) →
  ∀ id b, vocab self' !! id = Some b →
          Forall (λ x, 0 ≤ x < 256) b ∧ (1 ≤ length b)%nat
          ∧ (256 ≤ id → (2 ≤ length b)%nat).
Proof.
  induction 1 as [|i ids self pair ids1 self1 rules ids' self' Hbody _ IH];
    intros Hinv Hentries; [done|].
  destruct (train_body_Some bs _ _ _ _ _ _ Hinv Hbody)
    as (bl & br & _ & Hl & Hr & _ & _ & _ & _ & Hvocab & Hinv').
  apply (IH Hinv'). intros id b. rewrite Hvocab, lookup_insert.
  case_decide as Hid; [|by apply Hentries]. intros [= <-].
  destruct (Hentries _ _ Hl) as (Hbl & Hbl1 & _).
  destruct (Hentries _ _ Hr) as (Hbr & Hbr1 & _).
  rewrite length_app. split_and!; [by apply Forall_app | lia | lia].
Qed.
End train_run_more.

Lemma train_only_encoding_error_witness :
  train {| vocab_size := 300; merges := []; vocab := ∅ |}
    [Char 97 eq_refl; Char 0xD800 eq_refl]
  = Err UnicodeEncodeError.
Proof.
  apply train_only_encoding_error. split; [done|].
  apply Exists_cons; right. by apply Exists_cons; left.
Defined.

(** X8: every merge turn shortens the sequence by at least one, so the
    length of the sequence [train] returns plus the number of rules the run
    records is at most the number of bytes of the text; a non-empty text
    gives a non-empty sequence, hence fewer rules than it has bytes,
    whatever [vocab_size] allows. *)
Theorem train_compresses self text bs :
  encode_utf8 text = Ok bs →
  ∃ ids' self',
    train self text = Ok (ids', self')
    ∧ (length ids' + length (train_rules self text) ≤ length bs)%nat
    ∧ (bs ≠ [] →
       ids' ≠ [] ∧ (length (train_rules self text) < length bs)%nat).
Proof.
  intros Hbs.
  destruct (train_spec self text bs Hbs) as (rules & ids' & self' & Ht & Hr & Hrun & _).
  destruct (train_run_length bs _ _ _ _ _ _ Hrun (train_inv_start self text bs Hbs))
    as [Hlen Hne].
  exists ids', self'. rewrite Hr. split_and!; [done | done |].
  intros Hbs'. specialize (Hne Hbs'). split; [done|].
  destruct ids'; [done | simpl in Hlen; lia].
Qed.

Lemma train_compresses_witness :
  ∃ ids' self',
    train {| vocab_size := 1000; merges := []; vocab := ∅ |}
      (str_of_string "aaabdaaabac") = Ok (ids', self')
    ∧ (length (train_rules {| vocab_size := 1000; merges := []; vocab := ∅ |}
                 (str_of_string "aaabdaaabac")) < 11)%nat.
Proof.
  destruct (train_compresses
              {| vocab_size := 1000; merges := []; vocab := ∅ |}
              (str_of_string "aaabdaaabac")
              [97; 97; 97; 98; 100; 97; 97; 97; 98; 97; 99] eq_refl)
    as (ids' & self' & Htrain & _ & Hne).
  exists ids', self'. split; [exact Htrain|]. by apply Hne.
Defined.

(** X9: a run of [train] never merges the same pair twice: the pairs of
    the rules it records are pairwise different. *)
Theorem train_pairs_distinct self text : NoDup (train_rules self text).*1.
Proof.
  destruct (encode_utf8 text) as [bs|e] eqn:Hbs.
  - destruct (train_spec self text bs Hbs) as (rules & ids' & self' & _ & -> & Hrun & _).
    apply (train_run_seen bs _ _ _ _ _ _ [] Hrun
             (train_inv_start self text bs Hbs)); constructor.
  - unfold train_rules. rewrite Hbs. constructor.
Qed.

(** X10: the sequence [train] returns is merged to the end: no pair of a
    recorded rule stands in it any more, and applying any recorded rule to
    it with [_merge] returns it unchanged. *)
Theorem train_output_fully_merged self text ids' self' :
  train self text = Ok (ids', self') →
  ∀ pair idx, (pair, idx) ∈ train_rules self text →
    (pair ∉ adjacent_pairs ids') ∧ _merge ids' pair idx = Ok ids'.
Proof.
  intros Ht. destruct (train_Ok_encode _ _ _ _ Ht) as [bs Hbs].
  destruct (train_spec self text bs Hbs) as (rules & ids0 & self0 & Ht0 & -> & Hrun & _).
  rewrite Ht in Ht0. injection Ht0 as <- <-.
  destruct (train_run_seen bs _ _ _ _ _ _ [] Hrun
              (train_inv_start self text bs Hbs)) as [_ Hgone]; [constructor..|].
  intros pair idx Hin. rewrite Forall_forall in Hgone.
  assert (pair ∉ adjacent_pairs ids') as Hp.
  { apply Hgone. by apply (list_elem_of_fmap_2 fst _ (pair, idx)). }
  split; [done|]. by rewrite _merge_spec, merge_pass_noop.
Qed.

Lemma train_output_fully_merged_witness :
  _merge [258; 100; 258; 97; 99] (97, 97) 256 = Ok [258; 100; 258; 97; 99].
Proof.
  refine (proj2 (train_output_fully_merged
                   {| vocab_size := 259; merges := []; vocab := ∅ |}
                   (str_of_string "aaabdaaabac") [258; 100; 258; 97; 99]
                   {| vocab_size := 259;
                      merges := [((97, 97), 256); ((256, 97), 257);
                                 ((257, 98), 258)];
                      vocab := <[258 := [97; 97; 97; 98]]>
                                 (<[257 := [97; 97; 97]]>
                                    (<[256 := [97; 97]]> base_vocab)) |}
                   _ (97, 97) 256 _)).
  - by vm_compute.
  - vm_compute. by apply elem_of_cons; left.
Defined.

(** A turn reads the tokenizer's vocabulary only: on two tokenizers with
    the same vocabulary it selects the same pair and builds the same
    sequence and vocabulary. *)
Lemma train_body_vocab_only i ids self1 self2 :
  vocab self1 = vocab self2 →
  train_body i ids self2
  = train_body i ids self1 ≫= λ turn,
      Ok (match turn with
          | None => None
          | Some (pair', ids', self1') =>
              Some (pair', ids',
                    {| vocab_size := vocab_size self2;
                       merges := dict_set pair' (256 + i) (merges self2);
                       vocab := vocab self1' |})
          end).
Proof.
  intros Hvocab. unfold train_body. case_bool_decide; [done|].
  destruct (py_max snd (_get_stats ids)) as [[pair' freq]|]; [|done].
  cbn [mbind result_bind]. destruct (_merge ids pair' (256 + i)); [|done].
  cbn [mbind result_bind set_merges vocab]. rewrite Hvocab.
  destruct (vocab_index (vocab self2) pair'.1); [|done].
  destruct (vocab_index (vocab self2) pair'.2); [|done].
  cbn [mbind result_bind]. unfold set_vocab, set_merges.
  cbn [vocab vocab_size merges]. by rewrite Hvocab.
Qed.

Lemma train_loop_vocab_only range ids self1 self2 :
  vocab self1 = vocab self2 →
  train_loop_rules range ids self2 = train_loop_rules range ids self1
  ∧ train_loop range ids self2
    = train_loop range ids self1 ≫= λ '(ids', self1'),
        Ok (ids',
            {| vocab_size := vocab_size self2;
               merges := record_rules (train_loop_rules range ids self1)
                           (merges self2);
               vocab := vocab self1' |}).
Proof.
  revert ids self1 self2.
  induction range as [|i range IH]; intros ids self1 self2 Hvocab.
  { cbn. rewrite Hvocab. by destruct self2. }
  cbn [train_loop train_loop_rules].
  rewrite (train_body_vocab_only i ids self1 self2 Hvocab).
  destruct (train_body i ids self1) as [[[[pair' ids1] self1']|]|];
    cbn [mbind result_bind]; [| |done].
  - destruct (IH ids1 self1'
                {| vocab_size := vocab_size self2;
                   merges := dict_set pair' (256 + i) (merges self2);
                   vocab := vocab self1' |} eq_refl) as [-> ->].
    split; [done|]. by destruct (train_loop range ids1 self1') as [[??]|].
  - rewrite Hvocab. by destruct self2.
Qed.

(** X11: what [train] returns and the vocabulary it builds do not depend
    on the state the tokenizer was in, only on its [vocab_size] and the
    text: on any tokenizer of the same size it records the same rules and
    returns the same sequence and the same vocabulary, and the merge table is
    the earlier table with these rules assigned to it by
    [self.merges[pair] = idx]: a pair that is a key of the earlier table
    keeps its place and takes the new id in place of its earlier one, a pair
    that is not is added at the end. *)
Theorem train_ignores_prior_state self1 self2 text ids' self1' :
  vocab_size self1 = vocab_size self2 →
  train self1 text = Ok (ids', self1') →
  train_rules self2 text = train_rules self1 text
  ∧ train self2 text
    = Ok (ids',
          {| vocab_size := vocab_size self2;
             merges := record_rules (train_rules self1 text) (merges self2);
             vocab := vocab self1' |}).
Proof.
  intros Hsize. unfold train, train_rules.
  destruct (encode_utf8 text) as [bs|]; [|done].
  cbn [mbind result_bind set_vocab vocab_size]. rewrite Hsize.
  destruct (train_loop_vocab_only (py_range (vocab_size self2 - 256)) bs
              (set_vocab (λ _, base_vocab) self1)
              (set_vocab (λ _, base_vocab) self2) eq_refl) as [Hrules Hloop].
  intros Hloop1. split; [exact Hrules|].
  unfold set_vocab in *. by rewrite Hloop, Hloop1.
Qed.

Lemma train_ignores_prior_state_witness :
  train {| vocab_size := 257; merges := [((97, 97), 256)];
           vocab := <[256 := [97; 97]]> base_vocab |} (str_of_string "bb")
  = Ok ([256],
        {| vocab_size := 257;
           merges := [((97, 97), 256); ((98, 98), 256)];
           vocab := <[256 := [98; 98]]> base_vocab |}).
Proof.
  refine (proj2 (train_ignores_prior_state
                   {| vocab_size := 257; merges := []; vocab := ∅ |}
                   {| vocab_size := 257; merges := [((97, 97), 256)];
                      vocab := <[256 := [97; 97]]> base_vocab |}
                   (str_of_string "bb") [256]
                   {| vocab_size := 257; merges := [((98, 98), 256)];
                      vocab := <[256 := [98; 98]]> base_vocab |}
                   eq_refl _)).
  by vm_compute.
Defined.

(** X12: a tokenizer whose [vocab_size] is at most 256 learns nothing:
    [train] records no rule, leaves the merge table as it is, sets the
    vocabulary to the 256 single bytes and returns the UTF-8 bytes of the
    text. *)
Theorem train_small_vocab_size self text :
  vocab_size self ≤ 256 →
  train_rules self text = []
  ∧ train self text
    = encode_utf8 text ≫= λ bs, Ok (bs, set_vocab (λ _, base_vocab) self).
Proof.
  intros Hsize. unfold train, train_rules, py_range.
  cbn [set_vocab vocab_size]. rewrite seqZ_nil by lia.
  by destruct (encode_utf8 text).
Qed.

Lemma train_small_vocab_size_witness :
  train {| vocab_size := 100; merges := []; vocab := ∅ |}
    (str_of_string "aaa")
  = Ok ([97; 97; 97],
        {| vocab_size := 100; merges := []; vocab := base_vocab |}).
Proof.
  by rewrite (proj2 (train_small_vocab_size
                       {| vocab_size := 100; merges := []; vocab := ∅ |}
                       (str_of_string "aaa") ltac:(simpl; lia))).
Defined.

(** X13: after [train] every entry of the vocabulary is a non-empty
    string of byte values below 256, and the entry of a merged id, one from
    256 on, has at least two bytes. *)
Theorem train_vocab_entries self text ids' self' :
  train self text = Ok (ids', self') →
  ∀ id b, vocab self' !! id = Some b →
    Forall (λ x, 0 ≤ x < 256) b ∧ (1 ≤ length b)%nat
    ∧ (256 ≤ id → (2 ≤ length b)%nat).
Proof.
  intros Ht. destruct (train_Ok_encode _ _ _ _ Ht) as [bs Hbs].
  destruct (train_spec self text bs Hbs) as (rules & ids0 & self0 & Ht0 & _ & Hrun & _).
  rewrite Ht in Ht0. injection Ht0 as <- <-.
  apply (train_run_entries bs _ _ _ _ _ _ Hrun (train_inv_start self text bs Hbs)).
  intros id b. cbn [set_vocab vocab]. rewrite base_vocab_lookup.
  case_decide as Hid; [|done]. intros [= <-].
  split_and!; [by apply Forall_singleton | simpl; lia | lia].
Qed.

Lemma train_vocab_entries_witness :
  (2 ≤ length [97; 97; 97; 98])%nat.
Proof.
  refine (proj2 (proj2 (train_vocab_entries
            {| vocab_size := 259; merges := []; vocab := ∅ |}
            (str_of_string "aaabdaaabac") [258; 100; 258; 97; 99]
            {| vocab_size := 259;
               merges := [((97, 97), 256); ((256, 97), 257);
                          ((257, 98), 258)];
               vocab := <[258 := [97; 97; 97; 98]]>
                          (<[257 := [97; 97; 97]]>
                             (<[256 := [97; 97]]> base_vocab)) |}
            _ 258 [97; 97; 97; 98] _)) _).
  - by vm_compute.
  - by vm_compute.
  - lia.
Defined.

(** ** Part-of-speech tags and lemmas *)

Lemma endswith_spec (s suffix : list char) :
  endswith s suffix = true ↔ ∃ k, s = k ++ suffix.
Proof.
  unfold endswith. rewrite bool_decide_eq_true. split.
  - intros Hdrop. exists (take (length s - length suffix) s).
    rewrite <-(take_drop (length s - length suffix) s) at 1.
    by rewrite Hdrop.
  - intros [k ->]. rewrite length_app.
    by rewrite drop_app_length' by lia.
Qed.

Lemma endswith_take (s suffix : list char) :
  endswith s suffix = true →
  s = take (length s - length suffix) s ++ suffix.
Proof.
  intros [k ->]%endswith_spec. rewrite length_app.
  replace (length k + length suffix - length suffix)%nat with (length k) by lia.
  by rewrite take_app_length.
Qed.

Lemma endswith_app_r (s pre suffix : list char) :
  endswith s (pre ++ suffix) = true → endswith s suffix = true.
Proof.
  intros [k ->]%endswith_spec. apply endswith_spec. exists (k ++ pre).
  by rewrite <-app_assoc.
Qed.

Lemma endswith_false_app_r (s pre suffix : list char) :
  endswith s suffix = false → endswith s (pre ++ suffix) = false.
Proof.
  intros Hs. destruct (endswith s (pre ++ suffix)) eqn:Hps; [|done].
  by rewrite (endswith_app_r _ _ _ Hps) in Hs.
Qed.

(** X14: [pos_tag_simple] returns the tokens in order, each with a tag.
    The verb endings are tried first and "s" is one of them, so a token
    ending in "s" is always tagged VERB, and the endings "ness", "less" and
    "ous" never decide a tag: without them in the tables every token gets
    the same tag. *)
Theorem pos_tag_simple_dead_endings (tokens : list (list char)) :
  (pos_tag_simple _initialize_dictionaries tokens).*1 = tokens
  ∧ pos_tag_simple _initialize_dictionaries tokens
    = pos_tag_simple
        {| lemma_dict := lemma_dict _initialize_dictionaries;
           verb_endings := verb_endings _initialize_dictionaries;
           noun_endings := str_of_string <$> ["tion"; "ment"; "ship"]%string;
           adj_endings := str_of_string <$> ["ful"; "ive"; "able"]%string |}
        tokens
  ∧ (∀ token ending,
       ending ∈ str_of_string <$> ["s"; "ness"; "less"; "ous"]%string →
       endswith token ending = true →
       pos_tag_simple _initialize_dictionaries [token]
       = [(token, str_of_string "VERB")]).
Proof.
  split_and!.
  - unfold pos_tag_simple. rewrite <-list_fmap_compose.
    rewrite <-(list_fmap_id tokens) at 2. apply list_fmap_ext.
    intros i token _. cbn. by repeat case_match.
  - unfold pos_tag_simple. apply list_fmap_ext. intros i token _.
    cbn [_initialize_dictionaries verb_endings noun_endings adj_endings
         fmap list_fmap existsb].
    destruct (endswith token (str_of_string "ing")); [done|].
    destruct (endswith token (str_of_string "ed")); [done|].
    destruct (endswith token (str_of_string "s")) eqn:Hs; [done|].
    cbn [orb].
    change (str_of_string "ness") with (str_of_string "nes" ++ str_of_string "s").
    change (str_of_string "less") with (str_of_string "les" ++ str_of_string "s").
    change (str_of_string "ous") with (str_of_string "ou" ++ str_of_string "s").
    rewrite (endswith_false_app_r token (str_of_string "nes") _ Hs).
    rewrite (endswith_false_app_r token (str_of_string "les") _ Hs).
    rewrite (endswith_false_app_r token (str_of_string "ou") _ Hs).
    cbn [orb]. done.
  - intros token ending Hending Hends.
    assert (endswith token (str_of_string "s") = true) as Hs.
    { cbn in Hending.
      repeat (apply elem_of_cons in Hending as [->|Hending]);
        [done | by apply (endswith_app_r _ (str_of_string "nes"))
        | by apply (endswith_app_r _ (str_of_string "les"))
        | by apply (endswith_app_r _ (str_of_string "ou"))
        | by apply elem_of_nil in Hending]. }
    unfold pos_tag_simple.
    cbn [_initialize_dictionaries verb_endings fmap list_fmap existsb].
    rewrite Hs. by rewrite !orb_true_r.
Qed.

Lemma pos_tag_simple_dead_endings_witness :
  pos_tag_simple _initialize_dictionaries [str_of_string "happiness"]
  = [(str_of_string "happiness", str_of_string "VERB")].
Proof.
  destruct (pos_tag_simple_dead_endings []) as (_ & _ & Hverb).
  apply (Hverb _ (str_of_string "ness")); [|by vm_compute].
  apply elem_of_cons; right. by apply elem_of_cons; left.
Defined.

Section lemmatize.
Variable lower : list char → list char.
Variable self : AdvancedTextPreprocessor.

Lemma endswith_strip (w suffix : list char) (n : nat) :
  n = length suffix → endswith w suffix = true →
  w = take (length w - n) w ++ suffix.
Proof. intros ->. apply endswith_take. Qed.

(** X15: [lemmatize] returns the dictionary entry of the lowercased word
    when there is one, whatever the part of speech; otherwise it returns the
    lowercased word with at most one of the endings "ing", "ed", "es", "s"
    taken off, and the lowercased word itself for a part of speech other
    than 'v' and 'n'. *)
Theorem lemmatize_result (word pos : list char) :
  (∀ lemma, dict_get (lower word) (lemma_dict self) = Some lemma →
            lemmatize lower self word pos = lemma)
  ∧ (dict_get (lower word) (lemma_dict self) = None →
     ∃ k, lower word = lemmatize lower self word pos ++ k
          ∧ k ∈ str_of_string <$> [""; "ing"; "ed"; "es"; "s"]%string
          ∧ (pos ≠ str_of_string "v" → pos ≠ str_of_string "n" → k = [])).
Proof.
  unfold lemmatize. cbv zeta. split.
  { intros lemma Hdict. by rewrite Hdict. }
  intros Hnone. rewrite Hnone.
  assert (∀ k0 : string,
            k0 ∈ [""; "ing"; "ed"; "es"; "s"]%string →
            str_of_string k0 ∈ str_of_string <$> [""; "ing"; "ed"; "es"; "s"]%string)
    as Hmem by (intros k0 ?; by apply list_elem_of_fmap_2).
  repeat case_bool_decide; repeat case_match;
    try (exists []; rewrite app_nil_r; split_and!; [done | | done];
         apply (Hmem ""%string); by apply elem_of_cons; left);
    match goal with
    | H : endswith _ (str_of_string ?e) = true |- _ =>
        exists (str_of_string e); split_and!;
          [by apply endswith_strip | apply (Hmem e) | by intros]
    | H : endswith _ (str_of_string ?e) && _ = true |- _ =>
        apply andb_prop in H as [H _];
        exists (str_of_string e); split_and!;
          [by apply endswith_strip | apply (Hmem e) | by intros]
    end;
    repeat (first [by apply elem_of_cons; left | apply elem_of_cons; right]).
Qed.

(** X16: [lemmatize] can return the empty string.  For a word that has no
    dictionary entry it does so exactly when the lowercased word is empty,
    or is "ing" or "ed" with part of speech 'v', or is "es" with part of
    speech 'n': these endings are taken off without a check of the length,
    only "s" is guarded. *)
Theorem lemmatize_empty (word pos : list char) :
  dict_get (lower word) (lemma_dict self) = None →
  lemmatize lower self word pos = []
  ↔ lower word = []
    ∨ (pos = str_of_string "v"
       ∧ (lower word = str_of_string "ing" ∨ lower word = str_of_string "ed"))
    ∨ (pos = str_of_string "n" ∧ lower word = str_of_string "es").
Proof.
  intros Hnone. unfold lemmatize. cbv zeta. rewrite Hnone.
  assert (∀ (w suffix : list char) n,
            n = length suffix → endswith w suffix = true →
            take (length w - n) w = [] → w = suffix) as Hstrip.
  { intros w suffix n Hn Hends Hnil.
    rewrite (endswith_strip w suffix n Hn Hends). by rewrite Hnil. }
  assert (∀ w : list char, (2 < length w)%nat →
            take (length w - 1) w ≠ []) as Hguard.
  { intros w Hw [?| ->]%take_nil_inv; simpl in *; lia. }
  repeat case_bool_decide; subst; repeat case_match;
    try match goal with
        | H : _ && false = true |- _ => by rewrite andb_false_r in H
        end;
    (split;
     [ intros Hres;
       try (by left);
       try (by exfalso; eapply Hguard);
       try (right; left; split; [done|]; left; by eapply Hstrip);
       try (right; left; split; [done|]; right; by eapply Hstrip);
       try (right; right; split; [done|]; by eapply Hstrip)
     | intros [Hw|[[Hp [Hw|Hw]]|[Hp Hw]]];
       try (by rewrite Hw);
       try (rewrite Hw in *; by vm_compute);
       try (rewrite Hw in *; by vm_compute in *);
       try (by vm_compute in Hp);
       try done ]).
Qed.
End lemmatize.

Lemma lemmatize_result_witness :
  lemmatize (λ w, w) _initialize_dictionaries (str_of_string "mice")
    (str_of_string "v") = str_of_string "mouse"
  ∧ ∃ k, str_of_string "boxes"
         = lemmatize (λ w, w) _initialize_dictionaries (str_of_string "boxes")
             (str_of_string "n") ++ k
         ∧ k ∈ str_of_string <$> [""; "ing"; "ed"; "es"; "s"]%string.
Proof.
  split.
  - apply (lemmatize_result (λ w, w) _initialize_dictionaries
             (str_of_string "mice") (str_of_string "v")). by vm_compute.
  - destruct (proj2 (lemmatize_result (λ w, w) _initialize_dictionaries
                       (str_of_string "boxes") (str_of_string "n")))
      as (k & Hk & Hin & _); [by vm_compute|].
    exists k. split; [exact Hk | exact Hin].
Defined.

Lemma lemmatize_empty_witness :
  lemmatize (λ w, w) _initialize_dictionaries (str_of_string "es")
    (str_of_string "n") = [].
Proof.
  apply (lemmatize_empty (λ w, w) _initialize_dictionaries);
    [by vm_compute|]. right; right. done.
Defined.

Section lemmatize_tokens.
Variable lower : list char → list char.

Lemma zip_fmap_same {A B} (g : A → B) (l : list A) :
  zip (g <$> l) l = (λ x, (g x, x)) <$> l.
Proof. induction l as [|x l IH]; [done|]. cbn. by rewrite IH. Qed.

(** X17: with a non-empty list of tags [lemmatize_tokens] lemmatizes as
    many tokens as there are tags and drops the tokens beyond them; with no
    tags, or an empty list of tags, it lemmatizes every token as a noun. *)
Theorem lemmatize_tokens_length self (tokens : list (list char))
    (pos_tags : option (list (list char * list char))) :
  (∀ tags, pos_tags = Some tags → tags ≠ [] →
     length (lemmatize_tokens lower self tokens pos_tags)
     = (length tags `min` length tokens)%nat
     ∧ lemmatize_tokens lower self tokens pos_tags
       = lemmatize_tokens lower self (take (length tags) tokens) pos_tags)
  ∧ (pos_tags = None ∨ pos_tags = Some [] →
     lemmatize_tokens lower self tokens pos_tags
     = (λ token, lemmatize lower self token (str_of_string "n")) <$> tokens).
Proof.
  split.
  - intros tags -> Hne. destruct tags as [|tag tags]; [done|].
    unfold lemmatize_tokens. split.
    + by rewrite length_fmap, length_zip.
    + f_equal. generalize (tag :: tags). clear. intros tags. revert tokens.
      induction tags as [|t tags IH]; intros [|token tokens]; cbn; try done.
      by rewrite <-IH.
  - by intros [->| ->].
Qed.

(** X18: with the tags of [pos_tag_simple] for the same tokens, and tokens
    that lowercasing leaves as they are, [lemmatize_tokens] applies the verb
    rules to every token: a token that is not tagged VERB ends in none of
    "ing", "ed", "s", so no rule applies to it, and the noun rule for "es"
    is never used. *)
Theorem lemmatize_tokens_pos_tag_simple (tokens : list (list char)) :
  Forall (λ token, lower token = token) tokens →
  lemmatize_tokens lower _initialize_dictionaries tokens
    (Some (pos_tag_simple _initialize_dictionaries tokens))
  = (λ token, lemmatize lower _initialize_dictionaries token
                (str_of_string "v")) <$> tokens.
Proof.
  intros Hlower. destruct (decide (tokens = [])) as [->|Hne]; [done|].
  assert (lemmatize_tokens lower _initialize_dictionaries tokens
            (Some (pos_tag_simple _initialize_dictionaries tokens))
          = (λ '((word, pos), token),
               if bool_decide (pos = str_of_string "VERB")
               then lemmatize lower _initialize_dictionaries token
                      (str_of_string "v")
               else lemmatize lower _initialize_dictionaries token
                      (str_of_string "n"))
            <$> zip (pos_tag_simple _initialize_dictionaries tokens) tokens)
    as ->.
  { unfold lemmatize_tokens.
    destruct (pos_tag_simple _initialize_dictionaries tokens) eqn:Htags.
    { by apply fmap_nil_inv in Htags. }
    apply list_fmap_ext. intros i [[word pos] token] _. cbn.
    by repeat case_bool_decide. }
  unfold pos_tag_simple. rewrite zip_fmap_same, <-list_fmap_compose.
  apply Forall_fmap_ext_1. eapply Forall_impl; [exact Hlower|].
  intros token Htoken. cbn [compose].
  cbn [_initialize_dictionaries verb_endings noun_endings adj_endings
       fmap list_fmap existsb].
  destruct (endswith token (str_of_string "ing")) eqn:Hing; [done|].
  destruct (endswith token (str_of_string "ed")) eqn:Hed; [done|].
  destruct (endswith token (str_of_string "s")) eqn:Hs; [done|].
  cbn [orb].
  assert (lemmatize lower _initialize_dictionaries token (str_of_string "n")
          = lemmatize lower _initialize_dictionaries token (str_of_string "v"))
    as Hsame.
  { unfold lemmatize. cbv zeta. rewrite Htoken.
    destruct (dict_get token _); [done|].
    rewrite (bool_decide_eq_true_2 (str_of_string "v" = str_of_string "v")) by done.
    rewrite (bool_decide_eq_false_2 (str_of_string "n" = str_of_string "v"))
      by (by intros [=]).
    rewrite (bool_decide_eq_true_2 (str_of_string "n" = str_of_string "n")) by done.
    rewrite Hing, Hed, Hs.
    change (str_of_string "es") with (str_of_string "e" ++ str_of_string "s").
    by rewrite (endswith_false_app_r token (str_of_string "e") _ Hs). }
  by repeat case_match.
Qed.

End lemmatize_tokens.

Lemma lemmatize_tokens_length_witness :
  length (lemmatize_tokens (λ w, w) _initialize_dictionaries
            [str_of_string "boxes"; str_of_string "dog"]
            (Some [(str_of_string "boxes", str_of_string "VERB")]))
  = 1%nat.
Proof.
  by rewrite (proj1 (proj1 (lemmatize_tokens_length (λ w, w)
                              _initialize_dictionaries
                              [str_of_string "boxes"; str_of_string "dog"]
                              (Some [(str_of_string "boxes",
                                      str_of_string "VERB")]))
                       _ eq_refl ltac:(done))).
Defined.

Lemma lemmatize_tokens_pos_tag_simple_witness :
  lemmatize_tokens (λ w, w) _initialize_dictionaries
    [str_of_string "boxes"; str_of_string "dog"]
    (Some (pos_tag_simple _initialize_dictionaries
             [str_of_string "boxes"; str_of_string "dog"]))
  = [str_of_string "boxe"; str_of_string "dog"].
Proof.
  rewrite (lemmatize_tokens_pos_tag_simple (λ w, w)
             [str_of_string "boxes"; str_of_string "dog"]);
    [by vm_compute | by repeat constructor].
Defined.
